(** * Wikipedia Philosophy Game: link extraction and navigation

    A shallow embedding of [wikipedia_philosophy.py].  The class
    [WikipediaPhilosophyGame] has two parts that matter here: the link
    extractor ([is_valid_link], [is_in_italics], [is_in_parentheses],
    [find_first_valid_links]) which works on a parsed document tree, and the
    navigation loop ([navigate]) which threads [visited_pages], [current_page],
    [iteration] and [link_attempt] through at most [MAX_ITERATIONS] passes.

    The libraries the script calls (requests, the lxml parser behind
    BeautifulSoup, urllib's [urljoin], [urlparse] and [unquote]) are not
    reimplemented: they are the fields of a record [Env] over which every
    definition and theorem is parametric.

    A Python [str] is a [string] here, its characters being those with a
    code below 256; [int] is [Z] where it can be negative ([num_links]) and
    [nat] for the two counters of [navigate], which only count up from 0. *)

From Stdlib Require Import ZArith String Ascii List Bool Lia PeanoNat.
Import ListNotations.
Open Scope string_scope.
Open Scope list_scope.

Set Implicit Arguments.
Set Warnings "-register-all".

(** ** Python strings *)

Module PyStr.

(** [s.startswith(p)] *)
Definition startswith (s p : string) : bool := String.prefix p s.

(** [sub in s] *)
Fixpoint contains (sub s : string) : bool :=
  if String.prefix sub s then true
  else match s with
       | EmptyString => false
       | String _ s' => contains sub s'
       end.

(** [str.isspace] on the code points below 256. *)
Definition isspace (c : ascii) : bool :=
  let n := nat_of_ascii c in
  (((9 <=? n) && (n <=? 13)) || ((28 <=? n) && (n <=? 32))
   || (n =? 133) || (n =? 160))%nat.

Fixpoint lstrip (s : string) : string :=
  match s with
  | EmptyString => EmptyString
  | String c s' => if isspace c then lstrip s' else s
  end.

Fixpoint rstrip (s : string) : string :=
  match s with
  | EmptyString => EmptyString
  | String c s' =>
      let r := rstrip s' in
      if isspace c && (r =? "")%string then EmptyString else String c r
  end.

(** [s.strip()] *)
Definition strip (s : string) : string := rstrip (lstrip s).

(** The maximal runs of non-whitespace characters of [s], left to right
    (what [re.findall(r"\S+", s)] returns); [cur] is the run being read. *)
Fixpoint words_from (cur s : string) : list string :=
  match s with
  | EmptyString => if (cur =? "")%string then [] else [cur]
  | String c s' =>
      if isspace c
      then (if (cur =? "")%string then [] else [cur]) ++ words_from "" s'
      else words_from (cur ++ String c "")%string s'
  end.

Definition words (s : string) : list string := words_from "" s.

(** [s.split(sep)[-1]] for a separator of [S n] characters: the text after
    the last of the occurrences of [sep] that a left-to-right scan without
    overlaps finds.  [skip] counts the characters of the occurrence being
    consumed, [piece] is the current last piece. *)
Fixpoint split_last_from (sep : string) (skip : nat) (piece s : string)
  : string :=
  match s with
  | EmptyString => piece
  | String c s' =>
      match skip with
      | S k => split_last_from sep k piece s'
      | O =>
          if String.prefix sep s
          then split_last_from sep (String.length sep - 1) "" s'
          else split_last_from sep 0 (piece ++ String c "")%string s'
      end
  end.

Definition split_last (sep s : string) : string :=
  split_last_from sep 0 "" s.

End PyStr.

(** ** The parsed document

    A BeautifulSoup tree: text nodes and tags with a name, the attributes as
    written in the page, and the children in document order.  A text node
    is a [NavigableString] or an object of one of its subclasses: the
    parser makes a [Comment] of a comment, a [Stylesheet] of the text inside
    [style], a [Script] of the text inside [script], and so on. *)

Inductive string_class : Type :=
| CData
| Comment
| Declaration
| Doctype
| ProcessingInstruction
| Stylesheet
| Script
| TemplateString
| RubyTextString
| RubyParenthesisString.

Inductive node : Type :=
| NavigableString (text : string)
| OtherString (class : string_class) (text : string)
| Tag (name : string) (attrs : list (string * string)) (contents : list node).

(** An element together with its chain of [.parent] links, nearest first. *)
Record element : Type := Element {
  self : node;
  parents : list node
}.

Module Soup.

(** [tag.name]; a text node has none. *)
Definition name (n : node) : option string :=
  match n with
  | NavigableString _ | OtherString _ _ => None
  | Tag nm _ _ => Some nm
  end.

Definition has_name (nm : string) (n : node) : bool :=
  match name n with
  | Some nm' => (nm' =? nm)%string
  | None => false
  end.

(** [tag.get(key)] *)
Definition get (n : node) (key : string) : option string :=
  match n with
  | NavigableString _ | OtherString _ _ => None
  | Tag _ attrs _ =>
      option_map snd (find (fun kv => (fst kv =? key)%string) attrs)
  end.

Definition contents (n : node) : list node :=
  match n with
  | NavigableString _ | OtherString _ _ => []
  | Tag _ _ cs => cs
  end.

(** The types of string that [get_text] looks at are given by a test on
    the class of a text node, [None] standing for [NavigableString] itself
    (the test of the library is on the exact type).  By default these are
    [NavigableString] and [CData]. *)
Definition main_content (class : option string_class) : bool :=
  match class with
  | None | Some CData => true
  | Some _ => false
  end.

(** [tag.interesting_string_types]: inside the tags that contain strings of
    a class of their own, that class alone. *)
Definition interesting_string_types (nm : string)
           (class : option string_class) : bool :=
  if (nm =? "rt")%string then
    match class with Some RubyTextString => true | _ => false end
  else if (nm =? "rp")%string then
    match class with Some RubyParenthesisString => true | _ => false end
  else if (nm =? "style")%string then
    match class with Some Stylesheet => true | _ => false end
  else if (nm =? "script")%string then
    match class with Some Script => true | _ => false end
  else if (nm =? "template")%string then
    match class with Some TemplateString => true | _ => false end
  else main_content class.

(** The types that [n.get_text()] looks at when none are given. *)
Definition string_types (n : node) : option string_class -> bool :=
  match n with
  | NavigableString _ | OtherString _ _ => main_content
  | Tag nm _ _ => interesting_string_types nm
  end.

(** [n._all_strings(types=types)]: the strings at and below a node whose
    class is one of [types], in document order. *)
Fixpoint all_strings (types : option string_class -> bool) (n : node)
  : list string :=
  match n with
  | NavigableString s => if types None then [s] else []
  | OtherString class s => if types (Some class) then [s] else []
  | Tag _ _ cs => flat_map (all_strings types) cs
  end.

(** [tag.get_text()] *)
Definition get_text (n : node) : string :=
  String.concat "" (all_strings (string_types n) n).

(** [tag.get_text(strip=True)]: every string is stripped and the empty
    ones are dropped before joining. *)
Definition get_text_strip (n : node) : string :=
  String.concat ""
    (filter (fun s => negb (s =? "")%string)
            (map PyStr.strip (all_strings (string_types n) n))).

(** The descendants of [n] in document order, each with its parents;
    [up] is the chain of parents of [n] itself. *)
Fixpoint descendants (up : list node) (n : node) : list element :=
  match n with
  | NavigableString _ | OtherString _ _ => []
  | Tag _ _ cs =>
      flat_map (fun c => Element c (n :: up) :: descendants (n :: up) c) cs
  end.

(** An attribute filter of [find]: an ordinary attribute matches by
    equality; [class] is multi-valued, and matches when one of its
    whitespace-separated values, or their re-joined string, is the one
    asked for. *)
Definition attr_matches (key value : string) (n : node) : bool :=
  match get n key with
  | None => false
  | Some v =>
      if (key =? "class")%string
      then let vs := PyStr.words v in
           existsb (String.eqb value) vs || (String.concat " " vs =? value)%string
      else (v =? value)%string
  end.

(** [n.find(nm, {key: value})]: the first matching descendant. *)
Definition find (nm key value : string) (n : node) : option node :=
  option_map self
    (List.find (fun e => has_name nm (self e) && attr_matches key value (self e))
               (descendants [] n)).

(** [n.find_all('p', recursive=False)] *)
Definition find_all_children (nm : string) (n : node) : list node :=
  filter (has_name nm) (contents n).

(** [n.find_all('a', href=True)]; the parents recorded are those inside
    [n], with [n] itself last. *)
Definition find_all_with (nm key : string) (n : node) : list element :=
  filter (fun e => has_name nm (self e) &&
                   match get (self e) key with Some _ => true | None => false end)
         (descendants [] n).

End Soup.

(** ** Regular expressions

    The fragment of [re] that [is_in_parentheses] builds: a sequence of
    literal characters and of starred negated one-character classes. *)

Inductive re_item : Type :=
| Lit (c : ascii)        (* an escaped literal character *)
| StarNot (c : ascii).   (* [[^c]*] *)

Module Re.

(** Does some prefix of [s] match [p]? *)
Fixpoint match_prefix (p : list re_item) (s : string) : bool :=
  match p with
  | [] => true
  | Lit c :: p' =>
      match s with
      | EmptyString => false
      | String d s' => if Ascii.eqb d c then match_prefix p' s' else false
      end
  | StarNot c :: p' =>
      (fix star (s : string) : bool :=
         if match_prefix p' s then true
         else match s with
              | EmptyString => false
              | String d s' => if Ascii.eqb d c then false else star s'
              end) s
  end.

(** [re.search(p, s)] as a truth value: a match starting anywhere. *)
Fixpoint search (p : list re_item) (s : string) : bool :=
  if match_prefix p s then true
  else match s with
       | EmptyString => false
       | String _ s' => search p s'
       end.

(** [re.escape(s)]: a pattern matching exactly the characters of [s]. *)
Definition escape (s : string) : list re_item :=
  map Lit (list_ascii_of_string s).

End Re.

(** ** The collaborators

    [http_get url] is [session.get(url, timeout=10)] followed by
    [raise_for_status()]: the response text, or [None] when a
    [RequestException] is raised.  [parse html] is the content of the tree
    that [BeautifulSoup(html, 'lxml')] builds. *)

Record Env : Type := {
  http_get : string -> option string;
  parse : string -> list node;
  urljoin : string -> string -> string;
  urlparse_path : string -> string;
  unquote : string -> string
}.

(** Exceptions that the subscripts of the script can raise. *)
Inductive exn : Type := KeyError | IndexError.

(** How a loop body ends: it falls through to the next round with the
    accumulated value, the function returns, or an exception escapes. *)
Inductive completion (A : Type) : Type :=
| Next (acc : A)
| Return (r : A)
| Raise (e : exn).
Arguments Next {A} acc.
Arguments Return {A} r.
Arguments Raise {A} e.

(** ** Class constants *)

Definition BASE_URL : string := "https://en.wikipedia.org".
Definition TARGET : string := "Philosophy".
Definition MAX_ITERATIONS : nat := 500.

(** ** The link filter *)

Definition invalid_prefixes : list string :=
  [ "/wiki/Help:"; "/wiki/Wikipedia:"; "/wiki/Special:"; "/wiki/Talk:";
    "/wiki/File:"; "/wiki/Template:"; "/wiki/Category:"; "/wiki/Portal:" ].

(** The decision of [is_valid_link] on the value of [href]. *)
Definition valid_href (href : string) : bool :=
  if negb (PyStr.startswith href "/wiki/") then false
  else if existsb (PyStr.startswith href) invalid_prefixes then false
  else if PyStr.contains "#cite" href || PyStr.startswith href "#" then false
  else true.

Definition is_valid_link (link : node) : bool :=
  match Soup.get link "href" with
  | None => false
  | Some href => if (href =? "")%string then false else valid_href href
  end.

(** [is_in_italics]: the walk over [current], [current.parent], ... *)
Fixpoint italics_walk (chain : list node) : bool :=
  match chain with
  | [] => false
  | current :: up =>
      if Soup.has_name "i" current || Soup.has_name "em" current then true
      else if Soup.has_name "p" current then false
      else italics_walk up
  end.

Definition is_in_italics (e : element) : bool :=
  italics_walk (self e :: parents e).

(** The pattern [r'\([^)]*' + re.escape(link_text) + r'[^)]*\)']. *)
Definition paren_pattern (link_text : string) : list re_item :=
  [Lit "("%char; StarNot ")"%char] ++ Re.escape link_text
  ++ [StarNot ")"%char; Lit ")"%char].

(** [is_in_parentheses]: the walk stops at the first [p]. *)
Fixpoint parentheses_walk (elem : node) (chain : list node) : bool :=
  match chain with
  | [] => false
  | current :: up =>
      if Soup.has_name "p" current then
        let text := Soup.get_text current in
        let link_text := Soup.get_text elem in
        Re.search (paren_pattern link_text) text
      else parentheses_walk elem up
  end.

Definition is_in_parentheses (e : element) : bool :=
  parentheses_walk (self e) (self e :: parents e).

(** [print_summary]: the numbered lines of the path, the visited pages
    followed by the target. *)
Definition print_summary (visited_pages : list string) : list (nat * string) :=
  combine (seq 1 (length visited_pages)) visited_pages
  ++ [(length visited_pages + 1, TARGET)].

(** ** The navigation state *)

Record state : Type := State {
  visited_pages : list string;
  current_page : string;
  iteration : nat;
  link_attempt : nat;
  requests : list string      (* the URLs fetched so far, oldest first *)
}.

Inductive outcome : Type :=
| Succeeded (path : list (nat * string))
| FailedLoop
| FailedNoPrevious
| FailedFetch
| FailedNoLinks
| FailedTitle
| FailedBudget
| Uncaught (e : exn).

(** What [navigate] returns. *)
Definition returns (o : outcome) : option bool :=
  match o with
  | Succeeded _ => Some true
  | Uncaught _ => None
  | _ => Some false
  end.

(** How a pass that does not end the run moves on: back to the previous
    page after a loop was detected, or along the link at [index] of the
    [valid_links] found on the current page. *)
Inductive move : Type :=
| Backtracked
| Followed (index : nat) (valid_links : list string).

Inductive pass_result : Type :=
| Continue (m : move) (s : state)
| Stop (o : outcome) (s : state).

Definition state_of (r : pass_result) : state :=
  match r with Continue _ s => s | Stop _ s => s end.

Section Game.

Variable env : Env.

Definition get_page_title_from_url (url : string) : option string :=
  let path := urlparse_path env url in
  if PyStr.contains "/wiki/" path
  then Some (unquote env (PyStr.split_last "/wiki/" path))
  else None.

(** [fetch_page]: the pair [(html, url)], or [None] for [(None, None)];
    the request is added to the log [log]. *)
Definition fetch_page (log : list string) (page_title : string)
  : option (string * string) * list string :=
  let url := (BASE_URL ++ "/wiki/" ++ page_title)%string in
  match http_get env url with
  | Some text => (Some (text, url), log ++ [url])
  | None => (None, log ++ [url])
  end.

(** The loop over the links of one paragraph. *)
Fixpoint scan_links (num_links : Z) (links : list element)
         (valid_links : list string) : completion (list string) :=
  match links with
  | [] => Next valid_links
  | link :: links' =>
      if negb (is_valid_link (self link)) then
        scan_links num_links links' valid_links
      else if is_in_italics link then
        scan_links num_links links' valid_links
      else if is_in_parentheses link then
        scan_links num_links links' valid_links
      else
        match Soup.get (self link) "href" with
        | None => Raise KeyError
        | Some href =>
            let full_url := urljoin env BASE_URL href in
            let valid_links := valid_links ++ [full_url] in
            if (Z.of_nat (length valid_links) >=? num_links)%Z
            then Return valid_links
            else scan_links num_links links' valid_links
        end
  end.

(** The loop over the paragraphs, and the final [return valid_links]. *)
Fixpoint scan_paragraphs (num_links : Z) (paragraphs : list node)
         (valid_links : list string) : completion (list string) :=
  match paragraphs with
  | [] => Return valid_links
  | paragraph :: paragraphs' =>
      if (Soup.get_text_strip paragraph =? "")%string then
        scan_paragraphs num_links paragraphs' valid_links
      else
        match scan_links num_links
                (Soup.find_all_with "a" "href" paragraph) valid_links with
        | Next valid_links => scan_paragraphs num_links paragraphs' valid_links
        | done => done
        end
  end.

Definition find_first_valid_links (html : string) (num_links : Z)
  : completion (list string) :=
  let soup := Tag "[document]" [] (parse env html) in
  match Soup.find "div" "id" "mw-content-text" soup with
  | None => Return []
  | Some content =>
      match Soup.find "div" "class" "mw-parser-output" content with
      | None => Return []
      | Some article_body =>
          scan_paragraphs num_links
            (Soup.find_all_children "p" article_body) []
      end
  end.

(** One pass of the [while] loop of [navigate]. *)
Definition pass (s : state) : pass_result :=
  let visited := visited_pages s in
  let current := current_page s in
  let iteration := S (iteration s) in
  let attempt := link_attempt s in
  let log := requests s in
  if (current =? TARGET)%string then
    Stop (Succeeded (print_summary visited))
         (State visited current iteration attempt log)
  else if existsb (String.eqb current) visited then
    if (attempt =? 0)%nat then
      let attempt := 1 in
      if (1 <=? length visited)%nat then
        match nth_error visited (length visited - 1) with
        | Some previous =>
            Continue Backtracked
                     (State visited previous iteration attempt log)
        | None =>
            Stop (Uncaught IndexError)
                 (State visited current iteration attempt log)
        end
      else
        Stop FailedNoPrevious (State visited current iteration attempt log)
    else
      Stop FailedLoop (State visited current iteration attempt log)
  else
    let visited := visited ++ [current] in
    match fetch_page log current with
    | (None, log) =>
        Stop FailedFetch (State visited current iteration attempt log)
    | (Some (html, url), log) =>
        if (html =? "")%string then
          Stop FailedFetch (State visited current iteration attempt log)
        else
          match find_first_valid_links html 2 with
          | Raise e =>
              Stop (Uncaught e) (State visited current iteration attempt log)
          | Next valid_links | Return valid_links =>
              match valid_links with
              | [] =>
                  Stop FailedNoLinks
                       (State visited current iteration attempt log)
              | _ :: _ =>
                  let index :=
                    if (attempt =? 1)%nat && (1 <? length valid_links)%nat
                    then 1 else 0 in
                  let attempt := 0 in
                  match nth_error valid_links index with
                  | None =>
                      Stop (Uncaught IndexError)
                           (State visited current iteration attempt log)
                  | Some next_url =>
                      match get_page_title_from_url next_url with
                      | None =>
                          Stop FailedTitle
                               (State visited current iteration attempt log)
                      | Some next_page =>
                          if (next_page =? "")%string then
                            Stop FailedTitle
                                 (State visited current iteration attempt log)
                          else
                            Continue (Followed index valid_links)
                              (State visited next_page iteration attempt log)
                      end
                  end
              end
          end
    end.

(** The [while iteration < MAX_ITERATIONS] loop; [fuel] bounds the number
    of passes the model runs. *)
Fixpoint loop (fuel : nat) (s : state) : option (outcome * state) :=
  match fuel with
  | O => None
  | S fuel' =>
      if (iteration s <? MAX_ITERATIONS)%nat then
        match pass s with
        | Continue _ s' => loop fuel' s'
        | Stop o s' => Some (o, s')
        end
      else Some (FailedBudget, s)
  end.

(** The state in which [navigate(start_page)] enters its loop, for a game
    whose [visited_pages] is [visited]. *)
Definition enter (visited : list string) (start_page : string) : state :=
  State visited start_page 0 0 [].

Definition navigate (visited : list string) (start_page : string)
  : option (outcome * state) :=
  loop (S MAX_ITERATIONS) (enter visited start_page).

(** A fresh game, as [main] creates it: [__init__] sets
    [visited_pages = []]. *)
Definition play (start_page : string) : option (outcome * state) :=
  navigate [] start_page.

End Game.

(** ** Runs

    The states in which a fresh game enters a pass of the loop, and the
    state after a given number of completed passes. *)

Section Runs.

Variable env : Env.

Inductive reachable (start_page : string) : state -> Prop :=
| reach_enter : reachable start_page (enter [] start_page)
| reach_pass s m s' :
    reachable start_page s ->
    iteration s < MAX_ITERATIONS ->
    pass env s = Continue m s' ->
    reachable start_page s'.

Fixpoint trajectory (k : nat) (s : state) : option state :=
  match k with
  | O => Some s
  | S k' =>
      if (iteration s <? MAX_ITERATIONS)%nat then
        match pass env s with
        | Continue _ s' => trajectory k' s'
        | Stop _ _ => None
        end
      else None
  end.

(** A pass on [s] that sees a page which is neither the target nor visited
    before, and that moves on to a next page. *)
Definition novel_pass (s : state) : bool :=
  negb (current_page s =? TARGET)%string
  && negb (existsb (String.eqb (current_page s)) (visited_pages s))
  && match pass env s with Continue _ _ => true | Stop _ _ => false end.

(** [novel_pass] holds before each of the first [n] passes from [s]. *)
Fixpoint novel_passes (n : nat) (s : state) : bool :=
  match n with
  | O => true
  | S n' =>
      novel_pass s &&
      match pass env s with
      | Continue _ s' => novel_passes n' s'
      | Stop _ _ => false
      end
  end.

End Runs.

(** What holds whenever the loop is entered: the visited pages are
    pairwise distinct and never contain the target, the counter is within
    the ceiling, and the second link is pending only right after a
    backtrack, on the page visited last. *)
Record invariant (s : state) : Prop := {
  inv_nodup : NoDup (visited_pages s);
  inv_target : ~ In TARGET (visited_pages s);
  inv_iteration : iteration s <= MAX_ITERATIONS;
  inv_attempt :
    link_attempt s = 0
    \/ (link_attempt s = 1 /\ In (current_page s) (visited_pages s))
}.

(** ** What a pattern matches

    The strings matched by a pattern, and the reading of the pattern of
    [is_in_parentheses] in words: an opening parenthesis, characters other
    than the closing one, the link text, again characters other than the
    closing one, and a closing parenthesis, somewhere in the text. *)

Inductive matches : list re_item -> string -> Prop :=
| matches_nil : matches [] EmptyString
| matches_lit c p s :
    matches p s -> matches (Lit c :: p) (String c s)
| matches_star_end c p s :
    matches p s -> matches (StarNot c :: p) s
| matches_star_more c d p s :
    d <> c -> matches (StarNot c :: p) s ->
    matches (StarNot c :: p) (String d s).

Definition free_of (c : ascii) (s : string) : Prop :=
  ~ In c (list_ascii_of_string s).

Definition in_parenthesized_span (link_text text : string) : Prop :=
  exists before inner_l inner_r after : string,
    text = (before ++ "(" ++ inner_l ++ link_text ++ inner_r ++ ")" ++ after)%string
    /\ free_of ")"%char inner_l /\ free_of ")"%char inner_r.

(** The paragraph an element stands in: the nearest [p] on its chain. *)
Definition enclosing_paragraph (e : element) : option node :=
  find (Soup.has_name "p") (self e :: parents e).

(** The anchors of a paragraph that pass the three filters, and the links
    that an unbounded scan of the paragraphs would collect. *)
Definition accepted (e : element) : bool :=
  is_valid_link (self e) && negb (is_in_italics e) && negb (is_in_parentheses e).

Definition href_of (e : element) : string :=
  match Soup.get (self e) "href" with Some h => h | None => EmptyString end.

Definition url_of (env : Env) (e : element) : string :=
  urljoin env BASE_URL (href_of e).

Definition candidates_of (env : Env) (paragraph : node) : list string :=
  if (Soup.get_text_strip paragraph =? "")%string then []
  else map (url_of env)
           (filter accepted (Soup.find_all_with "a" "href" paragraph)).

Definition all_candidates (env : Env) (paragraphs : list node) : list string :=
  flat_map (candidates_of env) paragraphs.

(** The number of links after which a scan asked for [num_links] links
    returns: the count is compared only once a link has been appended. *)
Definition cap (num_links : Z) : nat := Z.to_nat (Z.max 1 num_links).

(** The paragraphs that [find_first_valid_links] scans. *)
Definition article_paragraphs (env : Env) (html : string) : list node :=
  match Soup.find "div" "id" "mw-content-text"
                  (Tag "[document]" [] (parse env html)) with
  | None => []
  | Some content =>
      match Soup.find "div" "class" "mw-parser-output" content with
      | None => []
      | Some article_body => Soup.find_all_children "p" article_body
      end
  end.

(** ** Sample sites *)

Module Site.

Definition anchor (href : string) : node :=
  Tag "a" [("href", href)] [NavigableString href].

(** A rendered article whose only paragraph holds anchors to [hrefs]. *)
Definition article (hrefs : list string) : list node :=
  [Tag "html" []
     [Tag "body" []
        [Tag "div" [("id", "mw-content-text")]
           [Tag "div" [("class", "mw-parser-output")]
              [Tag "p" [] (map anchor hrefs)]]]]].

(** A page with a content region but no article body. *)
Definition bare : list node :=
  [Tag "html" []
     [Tag "body" []
        [Tag "div" [("id", "mw-content-text")]
           [Tag "p" [] [anchor "/wiki/Logic"]]]]].

Definition drop_origin (url : string) : string :=
  substring (String.length BASE_URL)
            (String.length url - String.length BASE_URL) url.

(** A site given by its pages, each with the hrefs of its paragraph; the
    text served for a page is its URL. *)
Definition serve (pages : list (string * list string)) : Env := {|
  http_get url :=
    if existsb (fun pg => (BASE_URL ++ "/wiki/" ++ fst pg =? url)%string) pages
    then Some url else None;
  parse html :=
    match find (fun pg => (BASE_URL ++ "/wiki/" ++ fst pg =? html)%string) pages with
    | Some (_, hrefs) => article hrefs
    | None => bare
    end;
  urljoin base href := (base ++ href)%string;
  urlparse_path := drop_origin;
  unquote title := title
|}.

(** A paragraph with a link inside parentheses and one outside. *)
Definition greek : node :=
  Tag "a" [("href", "/wiki/Greek_language")] [NavigableString "Greek"].

Definition reasoning : node :=
  Tag "a" [("href", "/wiki/Reason")] [NavigableString "reasoning"].

Definition logic_paragraph : node :=
  Tag "p" []
    [NavigableString "Logic (from "; greek;
     NavigableString " logos) is the study of "; reasoning;
     NavigableString "."].

(** Scenario C: the first link of the start page leads back to it, the
    second one to the target. *)
Definition scenario_C : Env :=
  serve [("Start", ["/wiki/Start"; "/wiki/Philosophy"])].

(** The same with a detour: the first link of the start page leads to a
    page whose first link leads back. *)
Definition scenario_C_detour : Env :=
  serve [("Start", ["/wiki/Detour"; "/wiki/Philosophy"]);
         ("Detour", ["/wiki/Start"; "/wiki/Philosophy"])].

(** Scenario A: the page served has no article body. *)
Definition scenario_A : Env :=
  {| http_get url := Some url;
     parse html := bare;
     urljoin base href := (base ++ href)%string;
     urlparse_path := drop_origin;
     unquote title := title |}.

(** The successor of a binary numeral written with its least
    significant digit first. *)
Fixpoint next_title (title : string) : string :=
  match title with
  | EmptyString => "1"
  | String c title' =>
      if Ascii.eqb c "0" then String "1" title'
      else String "0" (next_title title')
  end.

Definition drop_wiki (url : string) : string :=
  let path := drop_origin url in
  substring 6 (String.length path - 6) path.

(** Scenario E: the pages are numbered, and each one links to the next,
    a page never seen before. *)
Definition scenario_E : Env :=
  {| http_get url := Some url;
     parse html := article [("/wiki/" ++ next_title (drop_wiki html))%string];
     urljoin base href := (base ++ href)%string;
     urlparse_path := drop_origin;
     unquote title := title |}.

End Site.


(** ** The whole script

    The URL of a page, the page that the first valid link of a page leads
    to, the lists of pages in which each page is followed by that one, the
    cases of a pass, and [main]. *)

Definition page_url (page_title : string) : string :=
  (BASE_URL ++ "/wiki/" ++ page_title)%string.

(** What [navigate] makes of a page when it follows its first link: the
    page is fetched, its links are extracted, and the title of the first
    one is read off its URL. *)
Definition first_link_target (env : Env) (page_title : string)
  : option string :=
  match http_get env (page_url page_title) with
  | None => None
  | Some html =>
      if (html =? "")%string then None
      else
        match find_first_valid_links env html 2 with
        | Raise _ => None
        | Next valid_links | Return valid_links =>
            match valid_links with
            | [] => None
            | next_url :: _ =>
                match get_page_title_from_url env next_url with
                | None => None
                | Some next_page =>
                    if (next_page =? "")%string then None else Some next_page
                end
            end
        end
  end.

Fixpoint first_link_chain (env : Env) (pages : list string) : Prop :=
  match pages with
  | page :: (next :: _) as rest =>
      first_link_target env page = Some next /\ first_link_chain env rest
  | _ => True
  end.

(** The pages a state stands for: the visited ones, and the current one
    unless it was re-entered by a backtrack. *)
Definition trail (s : state) : list string :=
  if (link_attempt s =? 0)%nat then visited_pages s ++ [current_page s]
  else visited_pages s.

(** The index of the link that a pass selects. *)
Definition choice (attempt : nat) (valid_links : list string) : nat :=
  if (attempt =? 1)%nat && (1 <? length valid_links)%nat then 1 else 0.

(** The state after a pass that has committed the current page. *)
Definition visit (s : state) (current : string) (attempt : nat) : state :=
  State (visited_pages s ++ [current_page s]) current (S (iteration s))
        attempt (requests s ++ [page_url (current_page s)]).

(** The cases of a pass, in the order of the tests of the loop body. *)
Inductive pass_case (env : Env) (s : state) : pass_result -> Prop :=
| case_target :
    current_page s = TARGET ->
    pass_case env s
      (Stop (Succeeded (print_summary (visited_pages s)))
            (State (visited_pages s) (current_page s) (S (iteration s))
                   (link_attempt s) (requests s)))
| case_backtrack :
    current_page s <> TARGET ->
    In (current_page s) (visited_pages s) ->
    link_attempt s = 0 ->
    pass_case env s
      (Continue Backtracked
         (State (visited_pages s) (last (visited_pages s) EmptyString)
                (S (iteration s)) 1 (requests s)))
| case_loop :
    current_page s <> TARGET ->
    In (current_page s) (visited_pages s) ->
    link_attempt s <> 0 ->
    pass_case env s
      (Stop FailedLoop
         (State (visited_pages s) (current_page s) (S (iteration s))
                (link_attempt s) (requests s)))
| case_fetch :
    current_page s <> TARGET ->
    ~ In (current_page s) (visited_pages s) ->
    http_get env (page_url (current_page s)) = None
    \/ http_get env (page_url (current_page s)) = Some EmptyString ->
    pass_case env s
      (Stop FailedFetch (visit s (current_page s) (link_attempt s)))
| case_no_links html :
    current_page s <> TARGET ->
    ~ In (current_page s) (visited_pages s) ->
    http_get env (page_url (current_page s)) = Some html ->
    html <> EmptyString ->
    find_first_valid_links env html 2 = Return [] ->
    pass_case env s
      (Stop FailedNoLinks (visit s (current_page s) (link_attempt s)))
| case_title html valid_links next_url :
    current_page s <> TARGET ->
    ~ In (current_page s) (visited_pages s) ->
    http_get env (page_url (current_page s)) = Some html ->
    html <> EmptyString ->
    find_first_valid_links env html 2 = Return valid_links ->
    nth_error valid_links (choice (link_attempt s) valid_links)
    = Some next_url ->
    get_page_title_from_url env next_url = None
    \/ get_page_title_from_url env next_url = Some EmptyString ->
    pass_case env s (Stop FailedTitle (visit s (current_page s) 0))
| case_follow html valid_links next_url next_page :
    current_page s <> TARGET ->
    ~ In (current_page s) (visited_pages s) ->
    http_get env (page_url (current_page s)) = Some html ->
    html <> EmptyString ->
    find_first_valid_links env html 2 = Return valid_links ->
    nth_error valid_links (choice (link_attempt s) valid_links)
    = Some next_url ->
    get_page_title_from_url env next_url = Some next_page ->
    next_page <> EmptyString ->
    pass_case env s
      (Continue (Followed (choice (link_attempt s) valid_links) valid_links)
                (visit s next_page 0)).

(** What a run of the script leaves behind: the exit status, the numbered
    path it prints last (the full one after a success, the partial one after
    a failure), and the requests it made. *)
Record report : Type := Report {
  exit_status : nat;
  path_printed : list (nat * string);
  fetched : list string
}.

(** [main], with the line read from the input as argument.  An exception
    escaping [navigate] would end the script with status 1 and no path. *)
Definition main (env : Env) (input : string) : option report :=
  let start_page := PyStr.strip input in
  if (start_page =? "")%string then Some (Report 1 [] [])
  else
    match play env start_page with
    | None => None
    | Some (Succeeded path, s) => Some (Report 0 path (requests s))
    | Some (Uncaught _, s) => Some (Report 1 [] (requests s))
    | Some (_, s) =>
        Some (Report 1
                (combine (seq 1 (length (visited_pages s))) (visited_pages s))
                (requests s))
    end.

(** A string of whitespace only. *)
Definition blank (s : string) : Prop :=
  forall c, In c (list_ascii_of_string s) -> PyStr.isspace c = true.

(** ** More sample pages *)

Module Tour.

(** A site on which the first links lead from [Start] to the target. *)
Definition straight : Env :=
  Site.serve [("Start", ["/wiki/Logic"; "/wiki/Reason"]);
              ("Logic", ["/wiki/Philosophy"])].

(** A site whose start page cannot be fetched. *)
Definition offline : Env := Site.serve [].

Definition greek_again : node :=
  Tag "a" [("href", "/wiki/Greece")] [NavigableString "Greek"].

(** The same link text inside and outside parentheses. *)
Definition twice_greek : node :=
  Tag "p" []
    [NavigableString "Logic (from "; Site.greek;
     NavigableString " logos) was studied by the "; greek_again;
     NavigableString " philosophers."].

(** A paragraph without any parenthesis, its link in an emphasis. *)
Definition plain : node :=
  Tag "p" []
    [NavigableString "See also ";
     Tag "em" [] [Site.reasoning]; NavigableString "."].

(** A paragraph that holds a linked image and white space only. *)
Definition image_only : node :=
  Tag "p" []
    [Tag "a" [("href", "/wiki/Reason")] [Tag "img" [("src", "reason.png")] []];
     NavigableString "  "].

(** A paragraph with a style sheet in it: its text, as [get_text] gives
    it, is that of the two links and of the string between them. *)
Definition styled : node :=
  Tag "p" []
    [Tag "style" [] [OtherString Stylesheet ".x ( y"];
     Tag "a" [("href", "/wiki/A")] [NavigableString "A"];
     NavigableString " b) ";
     Tag "a" [("href", "/wiki/B")] [NavigableString "B"]].

(** A paragraph that holds a style sheet, a comment and a linked image. *)
Definition styled_image : node :=
  Tag "p" []
    [Tag "style" [] [OtherString Stylesheet ".a{}"];
     OtherString Comment " figure ";
     Tag "a" [("href", "/wiki/A")] [Tag "img" [("src", "a.png")] []]].

(** A site of numbered pages on which page 498, the one visited by pass
    499, links back to page 0. *)
Definition late_cycle : Env :=
  {| http_get url := Some url;
     parse html :=
       Site.article
         [if (Site.drop_wiki html =? "010011111")%string then "/wiki/0"
          else ("/wiki/" ++ Site.next_title (Site.drop_wiki html))%string];
     urljoin base href := (base ++ href)%string;
     urlparse_path := Site.drop_origin;
     unquote title := title |}.

End Tour.

(** ** Lists and strings *)

Lemma existsb_eqb_In (x : string) (l : list string) :
  existsb (String.eqb x) l = true <-> In x l.
Proof.
  rewrite existsb_exists. split.
  - intros [y [Hy Heq]]. apply String.eqb_eq in Heq. now subst.
  - intros H. exists x. split; [assumption | apply String.eqb_refl].
Qed.

Lemma existsb_eqb_not_In (x : string) (l : list string) :
  existsb (String.eqb x) l = false <-> ~ In x l.
Proof.
  rewrite <- existsb_eqb_In. destruct (existsb _ l); intuition congruence.
Qed.

Lemma nth_error_last (A : Type) (l : list A) (d : A) :
  l <> [] -> nth_error l (length l - 1) = Some (last l d).
Proof.
  induction l as [|a [|b l] IH]; intros Hne; [congruence | reflexivity |].
  replace (length (a :: b :: l) - 1) with (S (length (b :: l) - 1))
    by (simpl; lia).
  cbn [nth_error]. rewrite IH by congruence. reflexivity.
Qed.

Lemma last_In (A : Type) (l : list A) (d : A) : l <> [] -> In (last l d) l.
Proof.
  induction l as [|a [|b l] IH]; intros Hne; [congruence | now left |].
  right. apply IH. congruence.
Qed.

(** ** One pass of the loop, case by case *)

Section PassFacts.

Variable env : Env.

Ltac split_pass :=
  unfold pass, fetch_page;
  repeat match goal with
    | |- context [if ?b then _ else _] => destruct b eqn:?
    | |- context [match ?x with _ => _ end] => destruct x eqn:?
    end.

Lemma pass_target s :
  current_page s = TARGET ->
  pass env s
  = Stop (Succeeded (print_summary (visited_pages s)))
         (State (visited_pages s) (current_page s) (S (iteration s))
                (link_attempt s) (requests s)).
Proof.
  intros H. unfold pass. rewrite H, String.eqb_refl. reflexivity.
Qed.

Lemma pass_cycle_first s :
  current_page s <> TARGET ->
  In (current_page s) (visited_pages s) ->
  link_attempt s = 0 ->
  pass env s
  = Continue Backtracked
      (State (visited_pages s) (last (visited_pages s) EmptyString)
             (S (iteration s)) 1 (requests s)).
Proof.
  intros Ht Hin Ha. unfold pass.
  apply String.eqb_neq in Ht. rewrite Ht.
  pose proof Hin as Hex. apply existsb_eqb_In in Hex. rewrite Hex, Ha.
  assert (Hne : visited_pages s <> []) by (intros E; rewrite E in Hin; inversion Hin).
  simpl Nat.eqb. cbv iota.
  rewrite (nth_error_last EmptyString Hne).
  destruct (visited_pages s) as [|v vs]; [congruence | reflexivity].
Qed.

Lemma pass_cycle_again s :
  current_page s <> TARGET ->
  In (current_page s) (visited_pages s) ->
  link_attempt s <> 0 ->
  pass env s
  = Stop FailedLoop
      (State (visited_pages s) (current_page s) (S (iteration s))
             (link_attempt s) (requests s)).
Proof.
  intros Ht Hin Ha. unfold pass.
  apply String.eqb_neq in Ht. rewrite Ht.
  apply existsb_eqb_In in Hin. rewrite Hin.
  apply Nat.eqb_neq in Ha. rewrite Ha. reflexivity.
Qed.

Lemma pass_iteration s :
  iteration (state_of (pass env s)) = S (iteration s).
Proof. split_pass; reflexivity. Qed.

Lemma pass_revisit s :
  current_page s = TARGET \/ In (current_page s) (visited_pages s) ->
  visited_pages (state_of (pass env s)) = visited_pages s
  /\ requests (state_of (pass env s)) = requests s.
Proof.
  intros H.
  destruct (String.eqb_spec (current_page s) TARGET) as [Ht|Ht].
  { rewrite (pass_target s Ht). auto. }
  destruct H as [H|H]; [contradiction|].
  destruct (Nat.eq_dec (link_attempt s) 0) as [Ha|Ha].
  - rewrite (pass_cycle_first s Ht H Ha). auto.
  - rewrite (pass_cycle_again s Ht H Ha). auto.
Qed.

Lemma pass_novel s :
  current_page s <> TARGET ->
  ~ In (current_page s) (visited_pages s) ->
  visited_pages (state_of (pass env s))
  = visited_pages s ++ [current_page s]
  /\ requests (state_of (pass env s))
     = requests s ++ [(BASE_URL ++ "/wiki/" ++ current_page s)%string].
Proof.
  intros Ht Hin. unfold pass.
  apply String.eqb_neq in Ht. apply existsb_eqb_not_In in Hin.
  rewrite Ht, Hin. unfold fetch_page.
  destruct (http_get env _) as [text|]; [|split; reflexivity].
  destruct (String.eqb text EmptyString); [split; reflexivity|].
  destruct (find_first_valid_links env text 2) as [l|l|e];
    try (split; reflexivity);
    (destruct l as [|u l]; [split; reflexivity|]);
    (destruct (nth_error (u :: l) _) as [next_url|]; [|split; reflexivity]);
    (destruct (get_page_title_from_url env next_url) as [next_page|];
     [|split; reflexivity]);
    (destruct (String.eqb next_page EmptyString); split; reflexivity).
Qed.

Lemma pass_visited s :
  visited_pages (state_of (pass env s)) = visited_pages s
  \/ (visited_pages (state_of (pass env s))
      = visited_pages s ++ [current_page s]
      /\ ~ In (current_page s) (visited_pages s)
      /\ current_page s <> TARGET).
Proof.
  destruct (String.eqb_spec (current_page s) TARGET) as [Ht|Ht].
  { left. apply pass_revisit. now left. }
  destruct (in_dec string_dec (current_page s) (visited_pages s)) as [Hin|Hin].
  { left. apply pass_revisit. now right. }
  right. split; [|split; assumption]. now apply pass_novel.
Qed.

Lemma pass_backtracked s s' :
  pass env s = Continue Backtracked s' ->
  current_page s <> TARGET
  /\ In (current_page s) (visited_pages s)
  /\ link_attempt s = 0
  /\ s' = State (visited_pages s) (last (visited_pages s) EmptyString)
                (S (iteration s)) 1 (requests s).
Proof.
  intros H.
  destruct (String.eqb (current_page s) TARGET) eqn:Ht.
  { unfold pass in H. rewrite Ht in H. discriminate. }
  destruct (existsb (String.eqb (current_page s)) (visited_pages s)) eqn:Hin.
  - apply String.eqb_neq in Ht. apply existsb_eqb_In in Hin.
    destruct (Nat.eq_dec (link_attempt s) 0) as [Ha|Ha].
    + rewrite (pass_cycle_first s Ht Hin Ha) in H.
      injection H as <-. auto.
    + rewrite (pass_cycle_again s Ht Hin Ha) in H. discriminate.
  - exfalso. revert H. unfold pass. rewrite Ht, Hin. unfold fetch_page.
    repeat match goal with
      | |- context [if ?b then _ else _] => destruct b eqn:?
      | |- context [match ?x with _ => _ end] => destruct x eqn:?
      end; discriminate.
Qed.

Lemma pass_followed s index valid_links s' :
  pass env s = Continue (Followed index valid_links) s' ->
  current_page s <> TARGET
  /\ ~ In (current_page s) (visited_pages s)
  /\ index = (if (link_attempt s =? 1)%nat && (1 <? length valid_links)%nat
              then 1 else 0)
  /\ exists next_url,
       nth_error valid_links index = Some next_url
       /\ get_page_title_from_url env next_url = Some (current_page s')
       /\ s' = State (visited_pages s ++ [current_page s]) (current_page s')
                     (S (iteration s)) 0
                     (requests s
                      ++ [(BASE_URL ++ "/wiki/" ++ current_page s)%string]).
Proof.
  intros H.
  destruct (String.eqb (current_page s) TARGET) eqn:Ht.
  { unfold pass in H. rewrite Ht in H. discriminate. }
  destruct (existsb (String.eqb (current_page s)) (visited_pages s)) eqn:Hin.
  { exfalso. revert H. unfold pass. rewrite Ht, Hin.
    repeat match goal with
      | |- context [if ?b then _ else _] => destruct b eqn:?
      | |- context [match ?x with _ => _ end] => destruct x eqn:?
      end; discriminate. }
  split; [now apply String.eqb_neq|].
  split; [now apply existsb_eqb_not_In|].
  revert H. unfold pass. rewrite Ht, Hin. unfold fetch_page.
  destruct (http_get env _) as [text|]; [|discriminate].
  destruct (String.eqb text EmptyString); [discriminate|].
  destruct (find_first_valid_links env text 2) as [l|l|e];
    try discriminate;
    (destruct l as [|u l]; [discriminate|]);
    (destruct (nth_error (u :: l) _) as [next_url|] eqn:Hnth; [|discriminate]);
    (destruct (get_page_title_from_url env next_url) as [next_page|] eqn:Hti;
     [|discriminate]);
    (destruct (String.eqb next_page EmptyString); [discriminate|]);
    intros H; injection H as <- <- <-;
    (split; [reflexivity|]); exists next_url; simpl; auto.
Qed.

End PassFacts.

(** ** Invariants of a run *)

Lemma NoDup_snoc (A : Type) (l : list A) (x : A) :
  NoDup l -> ~ In x l -> NoDup (l ++ [x]).
Proof.
  induction 1 as [|y l Hy Hl IH]; intros Hx; simpl.
  - constructor; [intros [] | constructor].
  - constructor.
    + rewrite in_app_iff. intros [H|[H|[]]]; [contradiction|].
      apply Hx. now left.
    + apply IH. intros H. apply Hx. now right.
Qed.

Section RunFacts.

Variable env : Env.
Variable start_page : string.

Lemma reachable_invariant s :
  reachable env start_page s -> invariant s.
Proof.
  induction 1 as [|s m s' Hr IH Hlt Hp].
  - constructor; simpl; auto using NoDup_nil. unfold MAX_ITERATIONS. lia.
  - destruct IH as [Hnd Hnt Hit Hat]. destruct m as [|index links].
    + apply pass_backtracked in Hp.
      destruct Hp as (Ht & Hin & Ha & ->).
      constructor; simpl; auto.
      right. split; [reflexivity|]. apply last_In.
      intros E. rewrite E in Hin. inversion Hin.
    + apply pass_followed in Hp.
      destruct Hp as (Ht & Hin & _ & u & _ & _ & ->).
      constructor; simpl; auto.
      * now apply NoDup_snoc.
      * rewrite in_app_iff. intros [H|[H|[]]]; [contradiction | congruence].
Qed.

Lemma reachable_iteration_counts s :
  reachable env start_page s ->
  trajectory env (iteration s) (enter [] start_page) = Some s.
Proof.
  assert (Hsnoc : forall k s0 s1 m s2,
             trajectory env k s0 = Some s1 ->
             iteration s1 < MAX_ITERATIONS ->
             pass env s1 = Continue m s2 ->
             trajectory env (S k) s0 = Some s2).
  { induction k as [|k IH]; intros s0 s1 m s2 H Hlt Hp.
    - injection H as ->. simpl.
      apply Nat.ltb_lt in Hlt. rewrite Hlt, Hp. reflexivity.
    - simpl in H. change (trajectory env (S (S k)) s0)
        with (if (iteration s0 <? MAX_ITERATIONS)%nat
              then match pass env s0 with
                   | Continue _ s' => trajectory env (S k) s'
                   | Stop _ _ => None
                   end
              else None).
      destruct (iteration s0 <? MAX_ITERATIONS)%nat; [|discriminate].
      destruct (pass env s0) as [m0 s0'|]; [|discriminate].
      eapply IH; eauto. }
  induction 1 as [|s m s' Hr IH Hlt Hp]; [reflexivity|].
  pose proof (pass_iteration env s) as Hi. rewrite Hp in Hi. simpl in Hi.
  rewrite Hi. eapply Hsnoc; eauto.
Qed.

(** After a backtrack the page re-entered is still among the visited
    ones, so the next pass ends the run: the second link is never read. *)
Lemma backtrack_is_fatal s s' :
  reachable env start_page s ->
  pass env s = Continue Backtracked s' ->
  exists s'', pass env s' = Stop FailedLoop s''.
Proof.
  intros Hr Hp. apply reachable_invariant in Hr.
  destruct Hr as [_ Hnt _ _].
  apply pass_backtracked in Hp. destruct Hp as (_ & Hin & _ & ->).
  assert (Hne : visited_pages s <> [])
    by (intros E; rewrite E in Hin; inversion Hin).
  pose proof (last_In EmptyString Hne) as Hlast.
  eexists. apply pass_cycle_again; simpl.
  - intros E. apply Hnt. now rewrite <- E.
  - assumption.
  - discriminate.
Qed.

(** So a fresh game only ever follows the first link of a page. *)
Lemma second_link_never_followed s index valid_links s' :
  reachable env start_page s ->
  pass env s = Continue (Followed index valid_links) s' ->
  link_attempt s = 0 /\ index = 0.
Proof.
  intros Hr Hp. apply reachable_invariant in Hr.
  destruct Hr as [_ _ _ Hat].
  apply pass_followed in Hp. destruct Hp as (_ & Hin & Hidx & _).
  destruct Hat as [Ha|[_ Hin']]; [|contradiction].
  rewrite Ha in Hidx. auto.
Qed.

End RunFacts.

(** ** The loop as a whole *)

Section LoopFacts.

Variable env : Env.

Lemma loop_total fuel s :
  MAX_ITERATIONS - iteration s < fuel ->
  exists o s', loop env fuel s = Some (o, s').
Proof.
  revert s. induction fuel as [|fuel IH]; intros s Hf; [lia|].
  simpl. destruct (Nat.ltb_spec (iteration s) MAX_ITERATIONS) as [Hlt|Hge].
  - pose proof (pass_iteration env s) as Hi.
    destruct (pass env s) as [m s'|o s']; simpl in Hi; [|eauto].
    apply IH. lia.
  - eauto.
Qed.

Lemma loop_iteration fuel s o s' :
  loop env fuel s = Some (o, s') ->
  iteration s <= MAX_ITERATIONS ->
  iteration s <= iteration s' <= MAX_ITERATIONS.
Proof.
  revert s. induction fuel as [|fuel IH]; intros s H Hle; [discriminate|].
  simpl in H. destruct (Nat.ltb_spec (iteration s) MAX_ITERATIONS) as [Hlt|Hge].
  - pose proof (pass_iteration env s) as Hi.
    destruct (pass env s) as [m s1|o1 s1]; simpl in Hi.
    + apply IH in H; lia.
    + injection H as <- <-. lia.
  - injection H as <- <-. lia.
Qed.

(** The result of the loop is the last pass of a trajectory, or the
    state in which the ceiling was found reached. *)
Lemma loop_result fuel s o s' :
  loop env fuel s = Some (o, s') ->
  exists k s0,
    trajectory env k s = Some s0 /\
    ((iteration s0 < MAX_ITERATIONS /\ pass env s0 = Stop o s')
     \/ (MAX_ITERATIONS <= iteration s0 /\ o = FailedBudget /\ s' = s0)).
Proof.
  revert s. induction fuel as [|fuel IH]; intros s H; [discriminate|].
  simpl in H. destruct (Nat.ltb_spec (iteration s) MAX_ITERATIONS) as [Hlt|Hge].
  - destruct (pass env s) as [m s1|o1 s1] eqn:Hp.
    + apply IH in H. destruct H as (k & s0 & Ht & Hend).
      exists (S k), s0. split; [|assumption].
      simpl. apply Nat.ltb_lt in Hlt. rewrite Hlt, Hp. assumption.
    + injection H as <- <-. exists 0, s. split; [reflexivity|].
      left. auto.
  - injection H as <- <-. exists 0, s. split; [reflexivity|]. right. auto.
Qed.

Lemma trajectory_reachable start_page k s :
  trajectory env k (enter [] start_page) = Some s ->
  reachable env start_page s.
Proof.
  assert (G : forall k s0 s1,
             reachable env start_page s0 ->
             trajectory env k s0 = Some s1 ->
             reachable env start_page s1).
  { clear k s. induction k as [|k IH]; intros s0 s1 Hr H.
    - injection H as <-. assumption.
    - simpl in H.
      destruct (Nat.ltb_spec (iteration s0) MAX_ITERATIONS) as [Hlt|Hge];
        [|discriminate].
      destruct (pass env s0) as [m s0'|] eqn:Hp; [|discriminate].
      eapply IH; [|exact H]. econstructor; eauto. }
  apply G. constructor.
Qed.

End LoopFacts.

(** ** The cycle branch *)

Lemma scenario_C_first_pass :
  reachable Site.scenario_C "Start"
    (State ["Start"] "Start" 1 0 ["https://en.wikipedia.org/wiki/Start"]).
Proof.
  apply reach_pass
    with (s := enter [] "Start")
         (m := Followed 0 ["https://en.wikipedia.org/wiki/Start";
                           "https://en.wikipedia.org/wiki/Philosophy"]).
  - constructor.
  - unfold MAX_ITERATIONS. simpl. lia.
  - vm_compute. reflexivity.
Qed.

Lemma scenario_C_second_pass :
  reachable Site.scenario_C "Start"
    (State ["Start"] "Start" 2 1 ["https://en.wikipedia.org/wiki/Start"]).
Proof.
  apply reach_pass
    with (s := State ["Start"] "Start" 1 0
                     ["https://en.wikipedia.org/wiki/Start"])
         (m := Backtracked).
  - exact scenario_C_first_pass.
  - unfold MAX_ITERATIONS. simpl. lia.
  - vm_compute. reflexivity.
Qed.

(** C2.  In every pass of a run that finds the current page among the
    visited ones: when [link_attempt] is 0 (and [visited_pages] is not
    empty) the pass sets [link_attempt] to 1, makes the last visited page
    the current one, leaves [visited_pages] and the request log as they are
    and goes on with the loop; when [link_attempt] is 1 the run ends with
    the loop failure. *)
Theorem cycle_policy (env : Env) (start_page : string) (s : state) :
  reachable env start_page s ->
  In (current_page s) (visited_pages s) ->
  (link_attempt s = 0 -> visited_pages s <> [] ->
   pass env s
   = Continue Backtracked
       (State (visited_pages s) (last (visited_pages s) EmptyString)
              (S (iteration s)) 1 (requests s)))
  /\ (link_attempt s = 1 ->
      pass env s
      = Stop FailedLoop
          (State (visited_pages s) (current_page s) (S (iteration s)) 1
                 (requests s))).
Proof.
  intros Hr Hin.
  assert (Ht : current_page s <> TARGET).
  { intros E. apply (inv_target (reachable_invariant Hr)).
    now rewrite <- E. }
  split.
  - intros Ha _. now apply pass_cycle_first.
  - intros Ha. rewrite pass_cycle_again; auto.
    + rewrite Ha. reflexivity.
    + rewrite Ha. discriminate.
Qed.

Lemma cycle_policy_witness :
  pass Site.scenario_C
       (State ["Start"] "Start" 1 0 ["https://en.wikipedia.org/wiki/Start"])
  = Continue Backtracked
      (State ["Start"] "Start" 2 1 ["https://en.wikipedia.org/wiki/Start"])
  /\ pass Site.scenario_C
       (State ["Start"] "Start" 2 1 ["https://en.wikipedia.org/wiki/Start"])
     = Stop FailedLoop
         (State ["Start"] "Start" 3 1 ["https://en.wikipedia.org/wiki/Start"]).
Proof.
  split.
  - apply (proj1 (cycle_policy scenario_C_first_pass
                    (or_introl eq_refl))); [reflexivity | discriminate].
  - apply (proj2 (cycle_policy scenario_C_second_pass
                    (or_introl eq_refl))). reflexivity.
Defined.

(** The selection of a link, pass by pass, for any state: the second
    candidate when [link_attempt] is 1 and there is one, the first
    candidate otherwise, and [link_attempt] left at 0 in both cases. *)
Lemma link_selection_consumes_attempt
        (env : Env) (s s' : state) (index : nat) (valid_links : list string) :
  pass env s = Continue (Followed index valid_links) s' ->
  link_attempt s' = 0
  /\ (link_attempt s = 1 -> 1 < length valid_links -> index = 1)
  /\ (~ (link_attempt s = 1 /\ 1 < length valid_links) -> index = 0)
  /\ (exists next_url,
        nth_error valid_links index = Some next_url
        /\ get_page_title_from_url env next_url = Some (current_page s'))
  /\ (forall index' valid_links' s'',
        pass env s' = Continue (Followed index' valid_links') s'' ->
        index' = 0 /\ link_attempt s'' = 0).
Proof.
  intros Hp. apply pass_followed in Hp.
  destruct Hp as (_ & _ & Hidx & u & Hnth & Hti & Hs').
  assert (Ha' : link_attempt s' = 0) by (rewrite Hs'; reflexivity).
  split; [assumption|]. split; [|split; [|split]].
  - intros Ha Hlen. rewrite Hidx, Ha.
    apply Nat.ltb_lt in Hlen. rewrite Hlen. reflexivity.
  - intros Hn. rewrite Hidx.
    destruct (Nat.eqb_spec (link_attempt s) 1) as [Ha|Ha]; [|reflexivity].
    destruct (Nat.ltb_spec 1 (length valid_links)) as [Hl|Hl]; [|reflexivity].
    exfalso. auto.
  - exists u. auto.
  - intros index' links' s'' Hp'. apply pass_followed in Hp'.
    destruct Hp' as (_ & _ & Hidx' & _ & _ & _ & Hs'').
    rewrite Ha' in Hidx'. simpl in Hidx'.
    split; [assumption | rewrite Hs''; reflexivity].
Qed.


(** ** The visited pages *)

(** C4.  Along every run [visited_pages] only grows at its end, a pass
    appends the current page only when it is not among the visited ones, and
    so the list is free of duplicates before and after every pass. *)
Theorem visited_append_only (env : Env) (start_page : string) (s : state) :
  reachable env start_page s ->
  NoDup (visited_pages s)
  /\ NoDup (visited_pages (state_of (pass env s)))
  /\ (visited_pages (state_of (pass env s)) = visited_pages s
      \/ (visited_pages (state_of (pass env s))
          = visited_pages s ++ [current_page s]
          /\ ~ In (current_page s) (visited_pages s))).
Proof.
  intros Hr. pose proof (inv_nodup (reachable_invariant Hr)) as Hnd.
  split; [assumption|].
  destruct (pass_visited env s) as [E|(E & Hin & _)]; rewrite E.
  - auto.
  - split; [now apply NoDup_snoc | right; auto].
Qed.

Lemma visited_append_only_witness :
  NoDup ["Start"]
  /\ NoDup (visited_pages
              (state_of (pass Site.scenario_C
                 (State ["Start"] "Start" 1 0
                        ["https://en.wikipedia.org/wiki/Start"])))).
Proof.
  pose proof (visited_append_only scenario_C_first_pass) as H.
  split; [exact (proj1 H) | exact (proj1 (proj2 H))].
Defined.

(** ** Reaching the target *)

Lemma print_summary_pages (visited : list string) :
  map snd (print_summary visited) = visited ++ [TARGET].
Proof.
  unfold print_summary. rewrite map_app. simpl. f_equal.
  generalize 1. induction visited as [|v vs IH]; intros k; simpl.
  - reflexivity.
  - f_equal. apply IH.
Qed.

(** C5.  A pass entered with the target as current page ends the run as
    succeeded without adding to the request log; the path reported is
    [visited_pages] followed by the target.  A fresh game started on the
    target succeeds at once, with a path of length 1 and no request. *)
Theorem target_on_entry_succeeds (env : Env) (s : state) (fuel : nat) :
  current_page s = TARGET ->
  iteration s < MAX_ITERATIONS ->
  loop env (S fuel) s
  = Some (Succeeded (print_summary (visited_pages s)),
          State (visited_pages s) TARGET (S (iteration s)) (link_attempt s)
                (requests s))
  /\ map snd (print_summary (visited_pages s)) = visited_pages s ++ [TARGET]
  /\ last (map snd (print_summary (visited_pages s))) EmptyString = TARGET
  /\ play env TARGET
     = Some (Succeeded [(1, TARGET)], State [] TARGET 1 0 [])
  /\ length [(1, TARGET)] = 1.
Proof.
  intros Ht Hlt. split; [|split; [|split; [|split]]].
  - simpl. apply Nat.ltb_lt in Hlt. rewrite Hlt.
    rewrite (pass_target env s Ht), Ht. reflexivity.
  - apply print_summary_pages.
  - rewrite print_summary_pages. apply last_last.
  - reflexivity.
  - reflexivity.
Qed.

Lemma target_on_entry_succeeds_witness :
  loop Site.scenario_C 1 (State ["Start"] "Philosophy" 1 0
                                ["https://en.wikipedia.org/wiki/Start"])
  = Some (Succeeded [(1, "Start"); (2, "Philosophy")],
          State ["Start"] "Philosophy" 2 0
                ["https://en.wikipedia.org/wiki/Start"]).
Proof.
  refine (proj1 (target_on_entry_succeeds Site.scenario_C
                   (State ["Start"] "Philosophy" 1 0
                          ["https://en.wikipedia.org/wiki/Start"])
                   0 _ _)).
  - reflexivity.
  - unfold MAX_ITERATIONS. simpl. lia.
Defined.

(** ** Backtracking *)

Lemma pass_never_without_previous (env : Env) (s s' : state) :
  pass env s <> Stop FailedNoPrevious s'.
Proof.
  destruct (String.eqb_spec (current_page s) TARGET) as [Ht|Ht].
  { rewrite (pass_target env s Ht). discriminate. }
  destruct (in_dec string_dec (current_page s) (visited_pages s)) as [Hin|Hin].
  { destruct (Nat.eq_dec (link_attempt s) 0) as [Ha|Ha].
    - rewrite (pass_cycle_first env s Ht Hin Ha). discriminate.
    - rewrite (pass_cycle_again env s Ht Hin Ha). discriminate. }
  unfold pass.
  apply String.eqb_neq in Ht. apply existsb_eqb_not_In in Hin.
  rewrite Ht, Hin. unfold fetch_page.
  destruct (http_get env _) as [text|]; [|discriminate].
  destruct (String.eqb text EmptyString); [discriminate|].
  destruct (find_first_valid_links env text 2) as [l|l|e];
    try discriminate;
    (destruct l as [|u l]; [discriminate|]);
    (destruct (nth_error (u :: l) _) as [next_url|]; [|discriminate]);
    (destruct (get_page_title_from_url env next_url) as [next_page|];
     [|discriminate]);
    (destruct (String.eqb next_page EmptyString); discriminate).
Qed.

(** C10.  Whenever the current page is among the visited ones there is a
    visited page, so no pass, and no call of [navigate], ends in the
    failure of the branch that finds no previous page. *)
Theorem no_previous_unreachable (env : Env) (s : state) :
  In (current_page s) (visited_pages s) ->
  1 <= length (visited_pages s)
  /\ (forall s', pass env s <> Stop FailedNoPrevious s')
  /\ (forall visited start_page o s',
        navigate env visited start_page = Some (o, s') ->
        o <> FailedNoPrevious).
Proof.
  intros Hin. split; [|split].
  - destruct (visited_pages s); [inversion Hin | simpl; lia].
  - intros s'. apply pass_never_without_previous.
  - intros visited start_page o s' H. unfold navigate in H.
    apply loop_result in H. destruct H as (k & s0 & _ & [[_ Hp]|[_ [-> _]]]).
    + intros ->. exact (pass_never_without_previous _ _ Hp).
    + discriminate.
Qed.

Lemma no_previous_unreachable_witness :
  1 <= length ["Start"]
  /\ pass Site.scenario_C
          (State ["Start"] "Start" 1 0 ["https://en.wikipedia.org/wiki/Start"])
     <> Stop FailedNoPrevious
             (State ["Start"] "Start" 2 1 ["https://en.wikipedia.org/wiki/Start"]).
Proof.
  pose proof (no_previous_unreachable Site.scenario_C
                (State ["Start"] "Start" 1 0
                       ["https://en.wikipedia.org/wiki/Start"])
                (or_introl eq_refl)) as H.
  split; [exact (proj1 H) | exact (proj1 (proj2 H) _)].
Defined.

(** C1 (the run the claim describes, on the code).  On a site whose start
    page links first to itself and second to the target, the pass after the
    backtrack finds the page re-entered among the visited ones and ends the
    run with the loop failure: the second link is not followed. *)
Theorem scenario_C_ends_in_loop :
  play Site.scenario_C "Start"
  = Some (FailedLoop,
          State ["Start"] "Start" 3 1 ["https://en.wikipedia.org/wiki/Start"])
  /\ play Site.scenario_C_detour "Start"
     = Some (FailedLoop,
             State ["Start"; "Detour"] "Detour" 4 1
                   ["https://en.wikipedia.org/wiki/Start";
                    "https://en.wikipedia.org/wiki/Detour"])
  /\ pass Site.scenario_C (State [] "Start" 0 1 [])
     = Continue (Followed 1 ["https://en.wikipedia.org/wiki/Start";
                             "https://en.wikipedia.org/wiki/Philosophy"])
                (State ["Start"] "Philosophy" 1 0
                       ["https://en.wikipedia.org/wiki/Start"]).
Proof. repeat split; vm_compute; reflexivity. Qed.

(** ** The iteration budget *)

Section Budget.

Variable env : Env.
Variable start_page : string.

Hypothesis always_novel :
  forall s, reachable env start_page s ->
            iteration s < MAX_ITERATIONS ->
            current_page s <> TARGET
            /\ ~ In (current_page s) (visited_pages s)
            /\ exists m s', pass env s = Continue m s'.

Lemma novel_loop fuel s :
  reachable env start_page s ->
  length (visited_pages s) = iteration s ->
  MAX_ITERATIONS - iteration s < fuel ->
  exists s', loop env fuel s = Some (FailedBudget, s')
             /\ length (visited_pages s') = MAX_ITERATIONS
             /\ iteration s' = MAX_ITERATIONS.
Proof.
  revert s. induction fuel as [|fuel IH]; intros s Hr Hlen Hf; [lia|].
  simpl. destruct (Nat.ltb_spec (iteration s) MAX_ITERATIONS) as [Hlt|Hge].
  - destruct (always_novel Hr Hlt) as (Ht & Hin & m & s1 & Hp).
    rewrite Hp.
    pose proof (pass_iteration env s) as Hi.
    pose proof (proj1 (pass_novel env s Ht Hin)) as Hv.
    rewrite Hp in Hi, Hv. simpl in Hi, Hv.
    apply IH.
    + econstructor; eauto.
    + rewrite Hv, Hi, length_app. simpl. lia.
    + lia.
  - exists s. split; [reflexivity|].
    pose proof (inv_iteration (reachable_invariant Hr)). lia.
Qed.

End Budget.

Lemma novel_passes_sound (env : Env) (n : nat) :
  forall s0, novel_passes env n s0 = true ->
  forall k s, k < n -> trajectory env k s0 = Some s ->
              novel_pass env s = true.
Proof.
  induction n as [|n IH]; intros s0 H k s Hk Ht; [lia|].
  simpl in H. apply andb_true_iff in H. destruct H as [H0 H].
  destruct k as [|k].
  - injection Ht as <-. assumption.
  - simpl in Ht.
    destruct (iteration s0 <? MAX_ITERATIONS)%nat; [|discriminate].
    destruct (pass env s0) as [m s1|]; [|discriminate].
    apply (IH s1 H k s); [lia | assumption].
Qed.

Lemma novel_pass_spec (env : Env) (s : state) :
  novel_pass env s = true ->
  current_page s <> TARGET
  /\ ~ In (current_page s) (visited_pages s)
  /\ exists m s', pass env s = Continue m s'.
Proof.
  unfold novel_pass. intros H.
  apply andb_true_iff in H. destruct H as [H Hp].
  apply andb_true_iff in H. destruct H as [Ht Hin].
  apply negb_true_iff in Ht, Hin.
  split; [now apply String.eqb_neq|].
  split; [now apply existsb_eqb_not_In|].
  destruct (pass env s) as [m s'|]; [eauto | discriminate].
Qed.

(** C8.  Every pass adds one to [iteration]; a game ends after at most
    [MAX_ITERATIONS] = 500 passes; and a run in which each of the passes
    sees a page that is neither the target nor visited before, and moves on,
    ends with the budget failure and 500 visited pages. *)
Theorem iteration_budget (env : Env) (start_page : string) :
  (forall s, iteration (state_of (pass env s)) = S (iteration s))
  /\ (exists o s, play env start_page = Some (o, s)
                  /\ iteration s <= 500)
  /\ ((forall s, reachable env start_page s ->
                 iteration s < MAX_ITERATIONS ->
                 current_page s <> TARGET
                 /\ ~ In (current_page s) (visited_pages s)
                 /\ exists m s', pass env s = Continue m s') ->
      exists s, play env start_page = Some (FailedBudget, s)
                /\ length (visited_pages s) = 500
                /\ iteration s = 500).
Proof.
  split; [|split].
  - apply pass_iteration.
  - destruct (@loop_total env (S MAX_ITERATIONS) (enter [] start_page))
      as (o & s & H); [unfold enter; cbn [iteration]; lia|].
    exists o, s. split; [exact H|].
    apply loop_iteration in H; [|unfold enter; cbn [iteration]; lia].
    unfold MAX_ITERATIONS in H. lia.
  - intros Hnovel.
    destruct (@novel_loop env start_page Hnovel (S MAX_ITERATIONS)
                          (enter [] start_page))
      as (s & H & Hlen & Hit).
    + constructor.
    + reflexivity.
    + unfold enter. cbn [iteration]. lia.
    + exists s. auto.
Qed.

Lemma iteration_budget_witness :
  exists s, play Site.scenario_E "0" = Some (FailedBudget, s)
            /\ length (visited_pages s) = 500
            /\ iteration s = 500.
Proof.
  apply (proj2 (proj2 (iteration_budget Site.scenario_E "0"))).
  intros s Hr Hlt. apply novel_pass_spec.
  apply (@novel_passes_sound Site.scenario_E MAX_ITERATIONS (enter [] "0"))
    with (k := iteration s).
  - vm_compute. reflexivity.
  - exact Hlt.
  - apply reachable_iteration_counts. exact Hr.
Defined.

(** ** The matcher and the patterns *)

Lemma append_assoc (a b c : string) :
  ((a ++ b) ++ c)%string = (a ++ (b ++ c))%string.
Proof. induction a as [|x a IH]; simpl; [reflexivity | now rewrite IH]. Qed.

Lemma append_nil_r (a : string) : (a ++ EmptyString)%string = a.
Proof. induction a as [|x a IH]; simpl; [reflexivity | now rewrite IH]. Qed.

Lemma matches_star_inv c p m :
  matches (StarNot c :: p) m ->
  exists a m', m = (a ++ m')%string /\ free_of c a /\ matches p m'.
Proof.
  intros H. remember (StarNot c :: p) as q eqn:Eq.
  induction H as [|c0 p0 s H _|c0 p0 s H _|c0 d p0 s Hd H IH];
    try discriminate.
  - injection Eq as -> ->. exists EmptyString, s. repeat split; auto.
    intros [].
  - injection Eq as -> ->. destruct (IH eq_refl) as (a & m' & -> & Hf & Hm).
    exists (String d a), m'. repeat split; auto.
    intros [E|Hin]; [congruence | exact (Hf Hin)].
Qed.

Lemma matches_star_intro c p a m' :
  free_of c a -> matches p m' -> matches (StarNot c :: p) (a ++ m')%string.
Proof.
  intros Hf Hm. induction a as [|d a IH]; simpl.
  - now apply matches_star_end.
  - apply matches_star_more.
    + intros E. apply Hf. left. now subst.
    + apply IH. intros Hin. apply Hf. now right.
Qed.

Lemma matches_lits cs p m :
  matches (map Lit cs ++ p) m <->
  exists m', m = (string_of_list_ascii cs ++ m')%string /\ matches p m'.
Proof.
  revert m. induction cs as [|c cs IH]; intros m; simpl.
  - split; [intros H; now exists m | intros (m' & -> & H); exact H].
  - split.
    + intros H. inversion H as [|c0 p0 s Hs| |]; subst.
      apply IH in Hs. destruct Hs as (m' & -> & Hm). now exists m'.
    + intros (m' & -> & Hm). simpl. constructor. apply IH. now exists m'.
Qed.

Lemma matches_paren_pattern link_text m :
  matches (paren_pattern link_text) m <->
  exists inner_l inner_r,
    m = ("(" ++ inner_l ++ link_text ++ inner_r ++ ")")%string
    /\ free_of ")"%char inner_l /\ free_of ")"%char inner_r.
Proof.
  unfold paren_pattern, Re.escape. simpl app. split.
  - intros H. inversion H as [|c0 p0 s Hs| |]; subst.
    apply matches_star_inv in Hs. destruct Hs as (a & m1 & -> & Ha & Hs).
    apply matches_lits in Hs. destruct Hs as (m2 & -> & Hs).
    apply matches_star_inv in Hs. destruct Hs as (b & m3 & -> & Hb & Hs).
    inversion Hs as [|c0 p0 s Hs'| |]; subst. inversion Hs'; subst.
    exists a, b. rewrite string_of_list_ascii_of_string. auto.
  - intros (a & b & -> & Ha & Hb). simpl. constructor.
    apply matches_star_intro; [assumption|].
    apply matches_lits. exists (b ++ ")")%string.
    rewrite string_of_list_ascii_of_string. split; [reflexivity|].
    apply matches_star_intro; [assumption|]. repeat constructor.
Qed.

Lemma match_prefix_iff p s :
  Re.match_prefix p s = true <->
  exists m rest, s = (m ++ rest)%string /\ matches p m.
Proof.
  revert s. induction p as [|[c|c] p IH]; intros s.
  - simpl. split; [|reflexivity]. intros _.
    exists EmptyString, s. split; [reflexivity | constructor].
  - simpl. destruct s as [|d s].
    + split; [discriminate|]. intros (m & rest & E & H).
      inversion H; subst. discriminate.
    + destruct (Ascii.eqb_spec d c) as [->|Hne].
      * rewrite IH. split.
        -- intros (m & rest & -> & H). exists (String c m), rest.
           split; [reflexivity | now constructor].
        -- intros (m & rest & E & H). inversion H; subst.
           injection E as ->. eauto.
      * split; [discriminate|]. intros (m & rest & E & H).
        inversion H; subst. injection E as E _. congruence.
  - cbn [Re.match_prefix].
    induction s as [|d s IHs].
    + destruct (Re.match_prefix p EmptyString) eqn:Hp.
      * split; [|reflexivity]. intros _. apply IH in Hp.
        destruct Hp as (m & rest & E & H). exists m, rest.
        split; [assumption | now apply matches_star_end].
      * split; [discriminate|]. intros (m & rest & E & H).
        apply matches_star_inv in H. destruct H as (a & m' & -> & _ & H).
        destruct a; [|discriminate]. simpl in E.
        assert (Hp' : Re.match_prefix p EmptyString = true)
          by (apply IH; eauto).
        congruence.
    + destruct (Re.match_prefix p (String d s)) eqn:Hp.
      * split; [|reflexivity]. intros _. apply IH in Hp.
        destruct Hp as (m & rest & E & H). exists m, rest.
        split; [assumption | now apply matches_star_end].
      * destruct (Ascii.eqb_spec d c) as [->|Hne].
        -- split; [discriminate|]. intros (m & rest & E & H).
           apply matches_star_inv in H. destruct H as (a & m' & -> & Ha & H).
           destruct a as [|x a].
           ++ assert (Hp' : Re.match_prefix p (String c s) = true)
                by (apply IH; eauto).
              congruence.
           ++ simpl in E. injection E as -> _. exfalso. apply Ha. now left.
        -- rewrite IHs. split.
           ++ intros (m & rest & -> & H). exists (String d m), rest.
              split; [reflexivity | now apply matches_star_more].
           ++ intros (m & rest & E & H).
              apply matches_star_inv in H.
              destruct H as (a & m' & -> & Ha & H).
              destruct a as [|x a].
              ** assert (Hp' : Re.match_prefix p (String d s) = true)
                   by (apply IH; eauto).
                 congruence.
              ** simpl in E. injection E as -> ->.
                 exists (a ++ m')%string, rest. split; [reflexivity|].
                 apply matches_star_intro; [|assumption].
                 intros Hin. apply Ha. now right.
Qed.

Lemma search_iff p s :
  Re.search p s = true <->
  exists before m rest, s = (before ++ m ++ rest)%string /\ matches p m.
Proof.
  induction s as [|d s IHs]; simpl.
  - destruct (Re.match_prefix p EmptyString) eqn:Hp.
    + split; [|reflexivity]. intros _. apply match_prefix_iff in Hp.
      destruct Hp as (m & rest & E & H). exists EmptyString, m, rest. auto.
    + split; [discriminate|]. intros (b & m & rest & E & H).
      destruct b; [|discriminate]. simpl in E.
      assert (Hp' : Re.match_prefix p EmptyString = true)
        by (apply match_prefix_iff; eauto).
      congruence.
  - destruct (Re.match_prefix p (String d s)) eqn:Hp.
    + split; [|reflexivity]. intros _. apply match_prefix_iff in Hp.
      destruct Hp as (m & rest & E & H). exists EmptyString, m, rest. auto.
    + rewrite IHs. split.
      * intros (b & m & rest & -> & H). exists (String d b), m, rest. auto.
      * intros (b & m & rest & E & H). destruct b as [|x b].
        -- simpl in E.
           assert (Hp' : Re.match_prefix p (String d s) = true)
             by (apply match_prefix_iff; eauto).
           congruence.
        -- simpl in E. injection E as -> ->. eauto.
Qed.

Lemma search_paren_pattern link_text text :
  Re.search (paren_pattern link_text) text = true <->
  in_parenthesized_span link_text text.
Proof.
  rewrite search_iff. unfold in_parenthesized_span. split.
  - intros (b & m & rest & -> & H). apply matches_paren_pattern in H.
    destruct H as (l & r & -> & Hl & Hr). exists b, l, r, rest.
    split; [|auto]. f_equal. simpl. f_equal.
    rewrite !append_assoc. reflexivity.
  - intros (b & l & r & a & -> & Hl & Hr).
    exists b, ("(" ++ l ++ link_text ++ r ++ ")")%string, a. split.
    + f_equal. simpl. f_equal. rewrite !append_assoc. reflexivity.
    + apply matches_paren_pattern. eauto.
Qed.

Lemma parentheses_walk_paragraph elem chain :
  parentheses_walk elem chain
  = match find (Soup.has_name "p") chain with
    | Some p => Re.search (paren_pattern (Soup.get_text elem)) (Soup.get_text p)
    | None => false
    end.
Proof.
  induction chain as [|current up IH]; simpl; [reflexivity|].
  destruct (Soup.has_name "p" current); [reflexivity | exact IH].
Qed.

(** ** The document tree *)

Lemma node_nested_ind (P : node -> Prop) :
  (forall text, P (NavigableString text)) ->
  (forall class text, P (OtherString class text)) ->
  (forall name attrs cs, Forall P cs -> P (Tag name attrs cs)) ->
  forall n, P n.
Proof.
  intros Hstr Hother Htag. fix IH 1.
  intros [text|class text|name attrs cs]; [apply Hstr | apply Hother |].
  apply Htag. induction cs as [|c cs IHcs]; constructor; [apply IH | exact IHcs].
Qed.

(** The parents of a descendant of [n] end with [n] and the parents of [n]. *)
Lemma descendants_parents n :
  forall up e, In e (Soup.descendants up n) ->
               exists inner, parents e = inner ++ n :: up.
Proof.
  induction n as [text|class text|name attrs cs IH] using node_nested_ind;
    intros up e Hin; simpl in Hin; [contradiction | contradiction |].
  apply in_flat_map in Hin. destruct Hin as (c & Hc & [<-|Hin]).
  - exists []. reflexivity.
  - rewrite Forall_forall in IH.
    destruct (IH c Hc _ _ Hin) as (inner & ->).
    exists (inner ++ [c]). rewrite <- app_assoc. reflexivity.
Qed.

Lemma find_app_found (A : Type) (f : A -> bool) (l1 l2 : list A) (x : A) :
  f x = true ->
  exists y, find f (l1 ++ x :: l2) = Some y
            /\ (forallb (fun z => negb (f z)) l1 = true -> y = x).
Proof.
  intros Hx. induction l1 as [|a l1 IH]; simpl.
  - rewrite Hx. eauto.
  - destruct (f a) eqn:Ha; simpl.
    + exists a. split; [reflexivity | discriminate].
    + exact IH.
Qed.

(** The walks of [is_in_italics] and [is_in_parentheses] do not look above
    the first [p]: the chain may be cut after it. *)
Lemma walks_stop_at_paragraph (elem p : node) (below above : list node) :
  Soup.has_name "p" p = true ->
  italics_walk (below ++ p :: above) = italics_walk (below ++ [p])
  /\ parentheses_walk elem (below ++ p :: above)
     = parentheses_walk elem (below ++ [p]).
Proof.
  intros Hp. induction below as [|b below [IHi IHp]]; simpl.
  - rewrite Hp. split; [|reflexivity].
    destruct (Soup.has_name "i" p || Soup.has_name "em" p); reflexivity.
  - split.
    + destruct (Soup.has_name "i" b || Soup.has_name "em" b); [reflexivity|].
      destruct (Soup.has_name "p" b); [reflexivity | exact IHi].
    + destruct (Soup.has_name "p" b); [reflexivity | exact IHp].
Qed.

(** ** Scanning for links *)

Lemma is_valid_link_href (link : node) :
  is_valid_link link = true ->
  exists href, Soup.get link "href" = Some href /\ valid_href href = true.
Proof.
  unfold is_valid_link. destruct (Soup.get link "href") as [href|];
    [|discriminate].
  destruct (String.eqb href EmptyString); [discriminate|]. eauto.
Qed.

Lemma valid_href_prefixes (href : string) :
  valid_href href = true ->
  PyStr.startswith href "/wiki/" = true
  /\ forall prefix, In prefix invalid_prefixes ->
                    PyStr.startswith href prefix = false.
Proof.
  unfold valid_href. intros H.
  destruct (PyStr.startswith href "/wiki/"); [|discriminate].
  split; [reflexivity|]. simpl negb in H. cbv iota in H.
  destruct (existsb (PyStr.startswith href) invalid_prefixes) eqn:Hex;
    [discriminate|].
  intros prefix Hin.
  destruct (PyStr.startswith href prefix) eqn:Hp; [|reflexivity].
  assert (existsb (PyStr.startswith href) invalid_prefixes = true)
    by (apply existsb_exists; eauto).
  congruence.
Qed.

Lemma cap_positive (num_links : Z) : 1 <= cap num_links.
Proof. unfold cap. lia. Qed.

Lemma In_firstn (A : Type) (k : nat) (l : list A) (x : A) :
  In x (firstn k l) -> In x l.
Proof.
  intros H. rewrite <- (firstn_skipn k l). apply in_or_app. now left.
Qed.

Section ScanFacts.

Variable env : Env.
Variable num_links : Z.

Local Abbreviation url := (url_of env).

Lemma scan_links_reject link links valid_links :
  accepted link = false ->
  scan_links env num_links (link :: links) valid_links
  = scan_links env num_links links valid_links.
Proof.
  unfold accepted. intros H. simpl.
  destruct (is_valid_link (self link)); [|reflexivity].
  destruct (is_in_italics link); [reflexivity|].
  destruct (is_in_parentheses link); [reflexivity | discriminate].
Qed.

Lemma scan_links_accept link links valid_links :
  accepted link = true ->
  scan_links env num_links (link :: links) valid_links
  = if (Z.of_nat (length (valid_links ++ [url link])) >=? num_links)%Z
    then Return (valid_links ++ [url link])
    else scan_links env num_links links (valid_links ++ [url link]).
Proof.
  unfold accepted, url_of, href_of. intros H. simpl.
  destruct (is_valid_link (self link)) eqn:Hv; [|discriminate].
  destruct (is_in_italics link); [discriminate|].
  destruct (is_in_parentheses link); [discriminate|].
  destruct (is_valid_link_href _ Hv) as (href & -> & _). reflexivity.
Qed.

Lemma scan_links_spec links :
  forall valid_links,
    length valid_links < cap num_links ->
    scan_links env num_links links valid_links
    = let all := valid_links ++ map url (filter accepted links) in
      if (length all <? cap num_links)%nat then Next all
      else Return (firstn (cap num_links) all).
Proof.
  induction links as [|link links IH]; intros acc Hacc; cbn zeta.
  - simpl. rewrite app_nil_r. apply Nat.ltb_lt in Hacc. now rewrite Hacc.
  - destruct (accepted link) eqn:Hl.
    + rewrite (scan_links_accept _ _ _ Hl). simpl filter. rewrite Hl.
      simpl map.
      replace (acc ++ url link :: map url (filter accepted links))
        with ((acc ++ [url link]) ++ map url (filter accepted links))
        by (rewrite <- app_assoc; reflexivity).
      destruct (Z.geb_spec (Z.of_nat (length (acc ++ [url link])))
                           num_links) as [Hge|Hlt].
      * assert (Hcap : length (acc ++ [url link]) = cap num_links).
        { rewrite length_app in *. simpl length in *. unfold cap in *. lia. }
        rewrite length_app, Hcap.
        destruct (Nat.ltb_spec (cap num_links
                     + length (map url (filter accepted links)))
                    (cap num_links)) as [H|H]; [lia|].
        rewrite <- Hcap at 1. rewrite firstn_app, firstn_all.
        rewrite Nat.sub_diag, firstn_0, app_nil_r. reflexivity.
      * apply IH. rewrite length_app in *. simpl length in *.
        unfold cap in *. lia.
    + rewrite (scan_links_reject _ _ _ Hl). simpl filter. rewrite Hl.
      apply IH. assumption.
Qed.

Lemma scan_paragraphs_spec paragraphs :
  forall valid_links,
    length valid_links < cap num_links ->
    scan_paragraphs env num_links paragraphs valid_links
    = Return (firstn (cap num_links)
                     (valid_links ++ all_candidates env paragraphs)).
Proof.
  induction paragraphs as [|paragraph paragraphs IH]; intros acc Hacc.
  - simpl. rewrite app_nil_r, firstn_all2 by lia. reflexivity.
  - simpl. unfold candidates_of at 1.
    destruct (String.eqb (Soup.get_text_strip paragraph) EmptyString).
    + simpl. apply IH. assumption.
    + rewrite (scan_links_spec _ _ Hacc). cbn zeta. rewrite app_assoc.
      set (all := acc ++ map url
                    (filter accepted (Soup.find_all_with "a" "href" paragraph))).
      destruct (Nat.ltb_spec (length all) (cap num_links)) as [Hlt|Hge].
      * apply IH. assumption.
      * rewrite firstn_app.
        replace (cap num_links - length all) with 0 by lia.
        rewrite firstn_0, app_nil_r. reflexivity.
Qed.

Lemma find_first_valid_links_spec html :
  find_first_valid_links env html num_links
  = Return (firstn (cap num_links)
                   (all_candidates env (article_paragraphs env html))).
Proof.
  unfold find_first_valid_links, article_paragraphs.
  destruct (Soup.find "div" "id" "mw-content-text" _) as [content|];
    [|now rewrite firstn_nil].
  destruct (Soup.find "div" "class" "mw-parser-output" content)
    as [article_body|]; [|now rewrite firstn_nil].
  apply scan_paragraphs_spec. simpl. apply cap_positive.
Qed.

Lemma candidates_valid paragraphs url :
  In url (all_candidates env paragraphs) ->
  exists href, url = urljoin env BASE_URL href /\ valid_href href = true.
Proof.
  unfold all_candidates. intros H. apply in_flat_map in H.
  destruct H as (paragraph & _ & H). unfold candidates_of in H.
  destruct (String.eqb (Soup.get_text_strip paragraph) EmptyString);
    [contradiction|].
  apply in_map_iff in H. destruct H as (e & <- & He).
  apply filter_In in He. destruct He as [_ He]. unfold accepted in He.
  apply andb_true_iff in He. destruct He as [He _].
  apply andb_true_iff in He. destruct He as [He _].
  destruct (is_valid_link_href _ He) as (href & Hg & Hv).
  exists href. unfold url_of, href_of. rewrite Hg. auto.
Qed.

End ScanFacts.

(** No subscript of [navigate] is out of range: the exception outcome of
    the model is never produced. *)
Lemma pass_never_raises (env : Env) (s s' : state) (e : exn) :
  pass env s <> Stop (Uncaught e) s'.
Proof.
  destruct (String.eqb_spec (current_page s) TARGET) as [Ht|Ht].
  { rewrite (pass_target env s Ht). discriminate. }
  destruct (in_dec string_dec (current_page s) (visited_pages s)) as [Hin|Hin].
  { destruct (Nat.eq_dec (link_attempt s) 0) as [Ha|Ha].
    - rewrite (pass_cycle_first env s Ht Hin Ha). discriminate.
    - rewrite (pass_cycle_again env s Ht Hin Ha). discriminate. }
  unfold pass.
  apply String.eqb_neq in Ht. apply existsb_eqb_not_In in Hin.
  rewrite Ht, Hin. unfold fetch_page.
  destruct (http_get env _) as [text|]; [|discriminate].
  destruct (String.eqb text EmptyString); [discriminate|].
  rewrite find_first_valid_links_spec.
  destruct (firstn _ _) as [|u l]; [discriminate|].
  assert (Hnth : exists next_url,
             nth_error (u :: l)
               (if (link_attempt s =? 1)%nat && (1 <? length (u :: l))%nat
                then 1 else 0) = Some next_url).
  { destruct ((link_attempt s =? 1)%nat && (1 <? length (u :: l))%nat) eqn:Hc.
    - apply andb_true_iff in Hc. destruct Hc as [_ Hc].
      apply Nat.ltb_lt in Hc. destruct l as [|v l]; [simpl in Hc; lia|].
      exists v. reflexivity.
    - exists u. reflexivity. }
  destruct Hnth as (next_url & ->).
  destruct (get_page_title_from_url env next_url) as [next_page|];
    [|discriminate].
  destruct (String.eqb next_page EmptyString); discriminate.
Qed.

Lemma navigate_never_raises (env : Env) visited start_page o s e :
  navigate env visited start_page = Some (o, s) -> o <> Uncaught e.
Proof.
  intros H. unfold navigate in H. apply loop_result in H.
  destruct H as (k & s0 & _ & [[_ Hp]|[_ [-> _]]]).
  - intros ->. exact (pass_never_raises _ _ Hp).
  - discriminate.
Qed.

(** ** The extractor *)

(** C6 (as stated, on the code).  Asked for no link at all, the extractor
    still returns the first valid link of the page: the count is compared
    with [num_links] only after a link has been appended. *)
Lemma extract_zero_returns_one :
  find_first_valid_links Site.scenario_C
                         "https://en.wikipedia.org/wiki/Start" 0
  = Return ["https://en.wikipedia.org/wiki/Start"]
  /\ ~ (Z.of_nat (length ["https://en.wikipedia.org/wiki/Start"]) <= 0)%Z.
Proof. split; [vm_compute; reflexivity | simpl; lia]. Qed.

(** C6 (amended).  The extractor returns at most [num_links] links when
    [num_links] is at least 1, and at most one link otherwise; what it
    returns is the first [cap num_links] of the links that pass the filters,
    in document order, so nothing after the link that completes the count
    matters: not the paragraphs that follow, nor the links that follow in
    the paragraph.  Every link returned comes from an href under [/wiki/]
    that begins with none of the reserved prefixes. *)
Theorem extract_bounded (env : Env) (html : string) (num_links : Z) :
  exists valid_links,
    find_first_valid_links env html num_links = Return valid_links
    /\ valid_links
       = firstn (cap num_links)
                (all_candidates env (article_paragraphs env html))
    /\ (Z.of_nat (length valid_links) <= Z.max 1 num_links)%Z
    /\ ((1 <= num_links)%Z -> (Z.of_nat (length valid_links) <= num_links)%Z)
    /\ Forall (fun url =>
                 exists href,
                   url = urljoin env BASE_URL href
                   /\ PyStr.startswith href "/wiki/" = true
                   /\ forall prefix, In prefix invalid_prefixes ->
                                     PyStr.startswith href prefix = false)
              valid_links
    /\ (forall paragraphs rest,
          cap num_links <= length (all_candidates env paragraphs) ->
          scan_paragraphs env num_links (paragraphs ++ rest) []
          = scan_paragraphs env num_links paragraphs [])
    /\ (forall links rest,
          cap num_links <= length (filter accepted links) ->
          scan_links env num_links (links ++ rest) []
          = Return (firstn (cap num_links)
                           (map (url_of env) (filter accepted links)))).
Proof.
  exists (firstn (cap num_links)
                 (all_candidates env (article_paragraphs env html))).
  pose proof (cap_positive num_links) as Hcap.
  assert (Hlen : forall l : list string,
             (Z.of_nat (length (firstn (cap num_links) l))
              <= Z.max 1 num_links)%Z).
  { intros l. pose proof (firstn_le_length (cap num_links) l) as H.
    assert (Z.of_nat (cap num_links) = Z.max 1 num_links)
      by (unfold cap; lia).
    lia. }
  split; [apply find_first_valid_links_spec|].
  split; [reflexivity|].
  split; [apply Hlen|].
  split; [intros H1; specialize (Hlen
            (all_candidates env (article_paragraphs env html))); lia|].
  split; [|split].
  - apply Forall_forall. intros url Hin. apply In_firstn in Hin.
    destruct (candidates_valid _ _ _ Hin) as (href & -> & Hv).
    exists href. split; [reflexivity|]. now apply valid_href_prefixes.
  - intros paragraphs rest Hge.
    rewrite !scan_paragraphs_spec by (cbn [length]; lia). cbn [app].
    unfold all_candidates. rewrite flat_map_app, firstn_app.
    fold (all_candidates env paragraphs).
    replace (cap num_links - length (all_candidates env paragraphs))
      with 0 by lia.
    rewrite firstn_0, app_nil_r. reflexivity.
  - intros links rest Hge.
    rewrite scan_links_spec by (cbn [length]; lia). cbn zeta. cbn [app].
    rewrite filter_app, map_app, length_app, !length_map.
    destruct (Nat.ltb_spec (length (filter accepted links)
                            + length (filter accepted rest))
                           (cap num_links)) as [H|H]; [lia|].
    rewrite firstn_app, length_map.
    replace (cap num_links - length (filter accepted links)) with 0 by lia.
    rewrite firstn_0, app_nil_r. reflexivity.
Qed.

Lemma extract_bounded_witness :
  scan_paragraphs Site.scenario_C 1
                  ([Site.logic_paragraph] ++ [Site.logic_paragraph]) []
  = scan_paragraphs Site.scenario_C 1 [Site.logic_paragraph] [].
Proof.
  destruct (extract_bounded Site.scenario_C
              "https://en.wikipedia.org/wiki/Start" 1)
    as (l & _ & _ & _ & _ & _ & Hstop & _).
  apply Hstop. vm_compute. lia.
Defined.

(** C7.  The extractor always returns a list: no subscript of it can
    raise.  When the content region, or the article body inside it, is
    missing, the list is empty; and a pass whose page yields the empty list
    ends the run with the no-links failure. *)
Theorem extractor_never_fails
        (env : Env) (html : string) (num_links : Z) (s : state) :
  (exists valid_links,
     find_first_valid_links env html num_links = Return valid_links)
  /\ (Soup.find "div" "id" "mw-content-text"
                (Tag "[document]" [] (parse env html)) = None ->
      find_first_valid_links env html num_links = Return [])
  /\ (forall content,
        Soup.find "div" "id" "mw-content-text"
                  (Tag "[document]" [] (parse env html)) = Some content ->
        Soup.find "div" "class" "mw-parser-output" content = None ->
        find_first_valid_links env html num_links = Return [])
  /\ (current_page s <> TARGET ->
      ~ In (current_page s) (visited_pages s) ->
      http_get env (BASE_URL ++ "/wiki/" ++ current_page s)%string = Some html ->
      html <> EmptyString ->
      find_first_valid_links env html 2 = Return [] ->
      pass env s
      = Stop FailedNoLinks
          (State (visited_pages s ++ [current_page s]) (current_page s)
                 (S (iteration s)) (link_attempt s)
                 (requests s
                  ++ [(BASE_URL ++ "/wiki/" ++ current_page s)%string]))).
Proof.
  split; [|split; [|split]].
  - eexists. apply find_first_valid_links_spec.
  - intros H. unfold find_first_valid_links. rewrite H. reflexivity.
  - intros content H1 H2. unfold find_first_valid_links.
    rewrite H1, H2. reflexivity.
  - intros Ht Hin Hget Hne Hnone. unfold pass.
    apply String.eqb_neq in Ht, Hne. apply existsb_eqb_not_In in Hin.
    rewrite Ht, Hin. unfold fetch_page. rewrite Hget, Hne, Hnone.
    reflexivity.
Qed.

Lemma extractor_never_fails_witness :
  find_first_valid_links Site.scenario_A
                         "https://en.wikipedia.org/wiki/Start" 2
  = Return []
  /\ pass Site.scenario_A (enter [] "Start")
     = Stop FailedNoLinks
         (State ["Start"] "Start" 1 0 ["https://en.wikipedia.org/wiki/Start"]).
Proof.
  destruct (extractor_never_fails Site.scenario_A
              "https://en.wikipedia.org/wiki/Start" 2 (enter [] "Start"))
    as (_ & _ & Hbody & Hpass).
  assert (Hnone : find_first_valid_links Site.scenario_A
                    "https://en.wikipedia.org/wiki/Start" 2 = Return []).
  { apply (Hbody (Tag "div" [("id", "mw-content-text")]
                      [Tag "p" [] [Site.anchor "/wiki/Logic"]]));
      vm_compute; reflexivity. }
  split; [exact Hnone|].
  apply Hpass.
  - discriminate.
  - simpl. tauto.
  - reflexivity.
  - discriminate.
  - exact Hnone.
Defined.

(** C9.  An anchor is rejected as parenthetical exactly when the text of
    the paragraph it stands in contains an opening parenthesis, characters
    other than the closing one, the text of the link, again characters other
    than the closing one, and a closing parenthesis.  Every anchor that the
    scan of a paragraph meets stands in a paragraph (the one scanned, unless
    another [p] lies in between), and an anchor that passes the filters on
    its href and on italics is dropped exactly when this test holds. *)
Theorem parenthetical_rejection (e : element) :
  (is_in_parentheses e = true <->
   exists paragraph,
     enclosing_paragraph e = Some paragraph
     /\ in_parenthesized_span (Soup.get_text (self e))
                              (Soup.get_text paragraph))
  /\ (forall attrs cs,
        In e (Soup.find_all_with "a" "href" (Tag "p" attrs cs)) ->
        exists paragraph,
          enclosing_paragraph e = Some paragraph
          /\ (forallb (fun n => negb (Soup.has_name "p" n))
                      (self e :: removelast (parents e)) = true ->
              paragraph = Tag "p" attrs cs))
  /\ (forall env num_links valid_links,
        is_valid_link (self e) = true ->
        is_in_italics e = false ->
        (scan_links env num_links [e] valid_links = Next valid_links
         <-> is_in_parentheses e = true)).
Proof.
  split; [|split].
  - unfold is_in_parentheses, enclosing_paragraph.
    rewrite parentheses_walk_paragraph.
    destruct (find (Soup.has_name "p") (self e :: parents e)) as [p|].
    + rewrite search_paren_pattern. split.
      * intros H. exists p. auto.
      * intros (p' & E & H). injection E as <-. exact H.
    + split; [discriminate|]. intros (p' & E & _). discriminate.
  - intros attrs cs Hin. unfold Soup.find_all_with in Hin.
    apply filter_In in Hin. destruct Hin as [Hin _].
    apply descendants_parents in Hin. destruct Hin as (inner & Hpar).
    unfold enclosing_paragraph. rewrite Hpar.
    rewrite removelast_app by discriminate. simpl removelast.
    rewrite app_nil_r.
    change (self e :: inner ++ [Tag "p" attrs cs])
      with ((self e :: inner) ++ Tag "p" attrs cs :: []).
    apply find_app_found. reflexivity.
  - intros env num_links acc Hv Hi.
    destruct (is_in_parentheses e) eqn:Hp.
    + split; [reflexivity|]. intros _. apply scan_links_reject.
      unfold accepted. rewrite Hv, Hi, Hp. reflexivity.
    + split; [|discriminate]. intros H.
      rewrite scan_links_accept in H
        by (unfold accepted; rewrite Hv, Hi, Hp; reflexivity).
      assert (Hneq : acc ++ [url_of env e] <> acc).
      { intros E. apply (f_equal (@length string)) in E.
        rewrite length_app in E. simpl in E. lia. }
      destruct (Z.of_nat (length (acc ++ [url_of env e])) >=? num_links)%Z;
        [discriminate|].
      simpl in H. injection H as H. contradiction.
Qed.

Lemma parenthetical_rejection_witness :
  (exists paragraph,
     enclosing_paragraph (Element Site.greek [Site.logic_paragraph])
     = Some paragraph)
  /\ is_in_parentheses (Element Site.greek [Site.logic_paragraph]) = true
  /\ scan_links Site.scenario_C 2
                [Element Site.reasoning [Site.logic_paragraph]] []
     <> Next [].
Proof.
  split; [|split].
  - destruct (proj1 (proj2 (parenthetical_rejection
                              (Element Site.greek [Site.logic_paragraph])))
                    [] (Soup.contents Site.logic_paragraph))
      as (p & Hp & _).
    + simpl. tauto.
    + exists p. exact Hp.
  - reflexivity.
  - intros H.
    apply (proj2 (proj2 (parenthetical_rejection
                           (Element Site.reasoning [Site.logic_paragraph])))
                 Site.scenario_C 2%Z []) in H.
    + discriminate H.
    + reflexivity.
    + reflexivity.
Defined.

(** ** The cases of a pass *)

Lemma pass_cases (env : Env) (s : state) : pass_case env s (pass env s).
Proof.
  destruct (String.eqb_spec (current_page s) TARGET) as [Ht|Ht].
  { rewrite (pass_target env s Ht). now constructor. }
  destruct (in_dec string_dec (current_page s) (visited_pages s)) as [Hin|Hin].
  { destruct (Nat.eq_dec (link_attempt s) 0) as [Ha|Ha].
    - rewrite (pass_cycle_first env s Ht Hin Ha). now constructor.
    - rewrite (pass_cycle_again env s Ht Hin Ha). now constructor. }
  pose proof Ht as Ht'. pose proof Hin as Hin'.
  unfold pass.
  apply String.eqb_neq in Ht'. apply existsb_eqb_not_In in Hin'.
  rewrite Ht', Hin'. unfold fetch_page.
  fold (page_url (current_page s)).
  destruct (http_get env (page_url (current_page s))) as [html|] eqn:Hget;
    [|apply case_fetch; auto].
  destruct (String.eqb_spec html EmptyString) as [->|Hne];
    [apply case_fetch; auto|].
  pose proof (find_first_valid_links_spec env 2 html) as Hspec.
  rewrite Hspec.
  destruct (firstn _ _) as [|u l] eqn:Hl;
    [eapply case_no_links; eauto|].
  fold (choice (link_attempt s) (u :: l)).
  destruct (nth_error (u :: l) (choice (link_attempt s) (u :: l)))
    as [next_url|] eqn:Hnth.
  - destruct (get_page_title_from_url env next_url) as [next_page|] eqn:Hti.
    + destruct (String.eqb_spec next_page EmptyString) as [->|Hnp].
      * eapply case_title; eauto.
      * eapply case_follow; eauto.
    + eapply case_title; eauto.
  - exfalso. unfold choice in Hnth.
    destruct ((link_attempt s =? 1)%nat && (1 <? length (u :: l))%nat) eqn:Hc.
    + apply andb_true_iff in Hc. destruct Hc as [_ Hc].
      apply Nat.ltb_lt in Hc. destruct l; [simpl in Hc; lia | discriminate].
    + discriminate.
Qed.

(** ** What every pass keeps *)

Lemma pass_keeps_requests (env : Env) (s : state) :
  requests s = map page_url (visited_pages s) ->
  requests (state_of (pass env s))
  = map page_url (visited_pages (state_of (pass env s))).
Proof.
  intros H. destruct (pass_cases env s); simpl; try assumption;
    rewrite map_app, H; reflexivity.
Qed.

Lemma pass_keeps_length (env : Env) (s : state) :
  length (visited_pages s) <= iteration s ->
  length (visited_pages (state_of (pass env s)))
  <= iteration (state_of (pass env s)).
Proof.
  intros H. destruct (pass_cases env s); simpl; try lia;
    rewrite length_app; simpl; lia.
Qed.

Lemma first_link_chain_app (env : Env) (pages : list string) (a b : string) :
  first_link_chain env (pages ++ [a]) ->
  first_link_target env a = Some b ->
  first_link_chain env ((pages ++ [a]) ++ [b]).
Proof.
  intros Hc Hab. induction pages as [|p pages IH]; simpl.
  - auto.
  - destruct pages as [|q pages]; simpl in *.
    + destruct Hc as [Hpa _]. auto.
    + destruct Hc as [Hpq Hc]. split; [assumption|]. apply IH. assumption.
Qed.

Lemma first_link_chain_front (env : Env) (pages : list string) (a : string) :
  first_link_chain env (pages ++ [a]) -> first_link_chain env pages.
Proof.
  induction pages as [|p pages IH]; simpl; [auto|].
  destruct pages as [|q pages]; simpl in *; [auto|].
  intros [Hpq Hc]. split; [assumption|]. apply IH. assumption.
Qed.

Lemma pass_followed_target (env : Env) s index valid_links s' :
  pass env s = Continue (Followed index valid_links) s' ->
  link_attempt s = 0 ->
  first_link_target env (current_page s) = Some (current_page s').
Proof.
  intros Hp Ha. pose proof (pass_cases env s) as Hc. rewrite Hp in Hc.
  inversion Hc; subst.
  match goal with
  | Hget : http_get _ _ = Some ?h, Hne : ?h <> EmptyString,
    Hl : find_first_valid_links _ ?h _ = Return ?l,
    Hn : nth_error ?l _ = Some ?u,
    Hti : get_page_title_from_url _ ?u = Some ?np,
    Hnp : ?np <> EmptyString |- _ =>
      unfold first_link_target; rewrite Hget;
      apply String.eqb_neq in Hne; rewrite Hne, Hl;
      unfold choice in Hn; rewrite Ha in Hn; simpl in Hn;
      destruct l as [|u0 l0]; [discriminate|];
      injection Hn as ->; rewrite Hti;
      apply String.eqb_neq in Hnp; rewrite Hnp
  end.
  reflexivity.
Qed.

Section TrailFacts.

Variable env : Env.
Variable start_page : string.

(** Along a run the requests are those for the visited pages, the visited
    pages are no more than the passes made, the trail starts at the start
    page and follows first links, and a pending second link means that the
    current page is the last one visited. *)
Lemma reachable_trail s :
  reachable env start_page s ->
  requests s = map page_url (visited_pages s)
  /\ length (visited_pages s) <= iteration s
  /\ (link_attempt s = 0 \/ link_attempt s = 1)
  /\ hd_error (trail s) = Some start_page
  /\ first_link_chain env (trail s)
  /\ (link_attempt s = 1 ->
      visited_pages s <> []
      /\ current_page s = last (visited_pages s) EmptyString).
Proof.
  induction 1 as [|s m s' Hr IH Hlt Hp].
  - simpl. repeat split; auto; discriminate.
  - destruct IH as (Hreq & Hlen & Hat & Hhd & Hch & Hlast).
    pose proof (pass_keeps_requests env s Hreq) as Hreq'.
    pose proof (pass_keeps_length env s Hlen) as Hlen'.
    rewrite Hp in Hreq', Hlen'. simpl in Hreq', Hlen'.
    split; [assumption|]. split; [assumption|].
    destruct m as [|index links].
    + (* back to the last page *)
      apply pass_backtracked in Hp. destruct Hp as (Ht & Hin & Ha & ->).
      unfold trail in *. rewrite Ha in *. simpl in *.
      assert (Hne : visited_pages s <> [])
        by (intros E; rewrite E in Hin; inversion Hin).
      split; [now right|]. split; [|split].
      * destruct (visited_pages s); [congruence | exact Hhd].
      * eapply first_link_chain_front; eauto.
      * intros _. auto.
    + (* along a link *)
      pose proof (pass_followed _ _ Hp) as (Ht & Hin & _ & u & _ & _ & Hs').
      assert (Ha : link_attempt s = 0).
      { destruct Hat as [Ha|Ha]; [assumption|].
        destruct (Hlast Ha) as [Hne Hcur]. exfalso. apply Hin.
        rewrite Hcur. now apply last_In. }
      pose proof (pass_followed_target _ _ Hp Ha) as Hnext.
      rewrite Hs'. unfold trail in *. rewrite Ha in *. simpl in *.
      split; [now left|]. split; [|split].
      * destruct (visited_pages s); exact Hhd.
      * apply first_link_chain_app; assumption.
      * intros E; discriminate.
Qed.

(** The state in which a game ends is the one a pass stopped in, or the
    one in which the ceiling was found reached. *)
Lemma play_result o s :
  play env start_page = Some (o, s) ->
  exists s0,
    reachable env start_page s0 /\
    ((iteration s0 < MAX_ITERATIONS /\ pass env s0 = Stop o s)
     \/ (MAX_ITERATIONS <= iteration s0 /\ o = FailedBudget /\ s = s0)).
Proof.
  intros H. unfold play, navigate in H. apply loop_result in H.
  destruct H as (k & s0 & Ht & Hend). exists s0. split; [|assumption].
  eapply trajectory_reachable; eauto.
Qed.

End TrailFacts.

Lemma page_url_injective (a b : string) : page_url a = page_url b -> a = b.
Proof. unfold page_url, BASE_URL. simpl. intros E. now inversion E. Qed.

Lemma NoDup_map_injective (A B : Type) (f : A -> B) (l : list A) :
  (forall x y, f x = f y -> x = y) -> NoDup l -> NoDup (map f l).
Proof.
  intros Hf. induction 1 as [|x l Hx Hl IH]; simpl; constructor; auto.
  intros Hin. apply in_map_iff in Hin. destruct Hin as (y & E & Hy).
  apply Hf in E. subst. contradiction.
Qed.

(** What holds of the state in which a game ends. *)
Lemma play_state (env : Env) (start_page : string) o s :
  play env start_page = Some (o, s) ->
  requests s = map page_url (visited_pages s)
  /\ length (visited_pages s) <= iteration s <= MAX_ITERATIONS
  /\ NoDup (visited_pages s)
  /\ ~ In TARGET (visited_pages s).
Proof.
  intros H. pose proof H as Hit.
  unfold play, navigate in Hit. apply loop_iteration in Hit;
    [|unfold enter; cbn [iteration]; lia].
  apply play_result in H. destruct H as (s0 & Hr & Hend).
  pose proof (reachable_trail Hr) as (Hreq & Hlen & _).
  pose proof (reachable_invariant Hr) as [Hnd Hnt _ _].
  destruct Hend as [[_ Hp]|[_ [_ ->]]].
  - pose proof (pass_keeps_requests env s0 Hreq) as Hreq'.
    pose proof (pass_keeps_length env s0 Hlen) as Hlen'.
    pose proof (pass_visited env s0) as Hv.
    rewrite Hp in Hreq', Hlen', Hv. simpl in Hreq', Hlen', Hv.
    split; [assumption|]. split; [lia|].
    destruct Hv as [->|(-> & Hin & Ht)]; [auto|]. split.
    + now apply NoDup_snoc.
    + rewrite in_app_iff. intros [E|[E|[]]]; [contradiction | congruence].
  - split; [assumption|]. split; [lia|]. auto.
Qed.

(** ** Properties of [navigate] *)

(** X1.  When a game ends, the requests made are those for the visited
    pages, in the order of the visits: every visited page was fetched once,
    no page was fetched twice, and nothing else was fetched. *)
Theorem fetches_are_visited_pages (env : Env) (start_page : string) o s :
  play env start_page = Some (o, s) ->
  requests s = map page_url (visited_pages s)
  /\ NoDup (requests s)
  /\ length (requests s) <= 500.
Proof.
  intros H. apply play_state in H.
  destruct H as (Hreq & Hlen & Hnd & _).
  split; [assumption|]. rewrite Hreq. split.
  - apply NoDup_map_injective; [exact page_url_injective | assumption].
  - rewrite length_map. unfold MAX_ITERATIONS in Hlen. lia.
Qed.

Lemma fetches_are_visited_pages_witness :
  requests (State ["Start"; "Logic"] "Philosophy" 3 0
                  ["https://en.wikipedia.org/wiki/Start";
                   "https://en.wikipedia.org/wiki/Logic"])
  = map page_url ["Start"; "Logic"].
Proof.
  refine (proj1 (@fetches_are_visited_pages Tour.straight "Start"
                   (Succeeded [(1, "Start"); (2, "Logic"); (3, "Philosophy")])
                   (State ["Start"; "Logic"] "Philosophy" 3 0
                          ["https://en.wikipedia.org/wiki/Start";
                           "https://en.wikipedia.org/wiki/Logic"]) _)).
  vm_compute. reflexivity.
Defined.

(** X2.  The path of a game that succeeds starts at the start page, and
    each of its pages is the one that the first valid link of the page
    before it leads to; its last page is the target. *)
Theorem success_follows_first_links
        (env : Env) (start_page : string) path s :
  play env start_page = Some (Succeeded path, s) ->
  hd_error (map snd path) = Some start_page
  /\ first_link_chain env (map snd path)
  /\ last (map snd path) EmptyString = TARGET.
Proof.
  intros H. apply play_result in H. destruct H as (s0 & Hr & Hend).
  destruct Hend as [[_ Hp]|[_ [E _]]]; [|discriminate].
  pose proof (reachable_trail Hr) as (_ & _ & Hat & Hhd & Hch & Hlast).
  pose proof (reachable_invariant Hr) as [_ Hnt _ _].
  pose proof (pass_cases env s0) as Hc. rewrite Hp in Hc.
  inversion Hc as [Ht| | | | | |]; subst.
  assert (Ha : link_attempt s0 = 0).
  { destruct Hat as [Ha|Ha]; [assumption|].
    destruct (Hlast Ha) as [Hne Hcur]. exfalso. apply Hnt.
    rewrite <- Ht, Hcur. now apply last_In. }
  unfold trail in Hhd, Hch. rewrite Ha, Ht in Hhd, Hch. simpl in Hhd, Hch.
  rewrite print_summary_pages. repeat split; auto. apply last_last.
Qed.

Lemma success_follows_first_links_witness :
  first_link_chain Tour.straight ["Start"; "Logic"; "Philosophy"].
Proof.
  refine (proj1 (proj2 (@success_follows_first_links Tour.straight "Start"
                   [(1, "Start"); (2, "Logic"); (3, "Philosophy")]
                   (State ["Start"; "Logic"] "Philosophy" 3 0
                          ["https://en.wikipedia.org/wiki/Start";
                           "https://en.wikipedia.org/wiki/Logic"]) _))).
  vm_compute. reflexivity.
Defined.

(** X3.  The path printed after a success numbers its lines from 1, lists
    the visited pages and then the target, and names no page twice; the
    number of clicks it reports is the number of visited pages. *)
Theorem success_path_shape (env : Env) (start_page : string) path s :
  play env start_page = Some (Succeeded path, s) ->
  map fst path = seq 1 (length (visited_pages s) + 1)
  /\ map snd path = visited_pages s ++ [TARGET]
  /\ NoDup (map snd path)
  /\ current_page s = TARGET
  /\ length path <= 501.
Proof.
  intros H. pose proof (play_state _ _ H) as (_ & Hlen & Hnd & Hnt).
  apply play_result in H. destruct H as (s0 & Hr & Hend).
  destruct Hend as [[_ Hp]|[_ [E _]]]; [|discriminate].
  pose proof (pass_cases env s0) as Hc. rewrite Hp in Hc.
  inversion Hc as [Ht| | | | | |]; subst. simpl in *.
  assert (Hfst : forall (l : list string) k,
             map fst (combine (seq k (length l)) l ++ [(length l + k, TARGET)])
             = seq k (length l + 1)).
  { induction l as [|x l IH]; intros k; simpl; [reflexivity|].
    f_equal. rewrite <- IH. repeat f_equal. lia. }
  split; [|split; [|split; [|split]]].
  - unfold print_summary. apply Hfst.
  - apply print_summary_pages.
  - rewrite print_summary_pages. now apply NoDup_snoc.
  - assumption.
  - unfold print_summary. rewrite length_app, length_combine, length_seq.
    simpl. unfold MAX_ITERATIONS in Hlen. lia.
Qed.

Lemma success_path_shape_witness :
  map snd [(1, "Start"); (2, "Logic"); (3, "Philosophy")]
  = ["Start"; "Logic"] ++ [TARGET].
Proof.
  refine (proj1 (proj2 (@success_path_shape Tour.straight "Start"
                   [(1, "Start"); (2, "Logic"); (3, "Philosophy")]
                   (State ["Start"; "Logic"] "Philosophy" 3 0
                          ["https://en.wikipedia.org/wiki/Start";
                           "https://en.wikipedia.org/wiki/Logic"]) _))).
  vm_compute. reflexivity.
Defined.

(** X4.  Whatever the outcome, the visited pages are at most as many as
    the passes made, which are at most 500, and the target is never among
    them: the partial path that [main] prints after a failure does not name
    the target. *)
Theorem visited_within_budget (env : Env) (start_page : string) o s :
  play env start_page = Some (o, s) ->
  length (visited_pages s) <= iteration s
  /\ iteration s <= 500
  /\ ~ In TARGET (visited_pages s).
Proof.
  intros H. apply play_state in H. destruct H as (_ & Hlen & _ & Hnt).
  unfold MAX_ITERATIONS in Hlen. repeat split; [lia | lia | assumption].
Qed.

Lemma visited_within_budget_witness :
  length ["Start"] <= 3 /\ 3 <= 500 /\ ~ In TARGET ["Start"].
Proof.
  refine (@visited_within_budget Site.scenario_C "Start" FailedLoop
            (State ["Start"] "Start" 3 1
                   ["https://en.wikipedia.org/wiki/Start"]) _).
  vm_compute. reflexivity.
Defined.

(** X5.  A game that fails on fetching a page, on finding no link in it or
    on reading the title of the link ends on that page, which is the last
    of the visited pages and the last one fetched.  A game that fails on a
    loop ends with the second link pending on the last visited page, and a
    game that exhausts the budget has made 500 passes. *)
Theorem failure_names_last_page (env : Env) (start_page : string) o s :
  play env start_page = Some (o, s) ->
  (o = FailedFetch \/ o = FailedNoLinks \/ o = FailedTitle ->
   last (visited_pages s) EmptyString = current_page s
   /\ last (requests s) EmptyString = page_url (current_page s))
  /\ (o = FailedLoop ->
      link_attempt s = 1
      /\ In (current_page s) (visited_pages s)
      /\ current_page s = last (visited_pages s) EmptyString)
  /\ (o = FailedBudget -> iteration s = 500).
Proof.
  intros H. pose proof H as Hit.
  unfold play, navigate in Hit. apply loop_iteration in Hit;
    [|unfold enter; cbn [iteration]; lia].
  apply play_result in H. destruct H as (s0 & Hr & Hend).
  pose proof (reachable_trail Hr) as (_ & _ & Hat & _ & _ & Hlast).
  destruct Hend as [[_ Hp]|[Hge [-> ->]]].
  - pose proof (pass_cases env s0) as Hc. rewrite Hp in Hc.
    inversion Hc; subst; unfold visit; simpl;
      (split; [|split]); intros E;
      try (destruct E as [E|[E|E]]); try discriminate;
      try (split; apply last_last).
    destruct Hat as [Ha|Ha]; [contradiction|].
    destruct (Hlast Ha) as [Hne Hcur]. auto.
  - split; [|split].
    + intros [E|[E|E]]; discriminate.
    + discriminate.
    + intros _. unfold MAX_ITERATIONS in *. lia.
Qed.

Lemma failure_names_last_page_witness :
  last ["Start"] EmptyString = "Start"
  /\ last ["https://en.wikipedia.org/wiki/Start"] EmptyString
     = page_url "Start".
Proof.
  refine (proj1 (@failure_names_last_page Tour.offline "Start" FailedFetch
                   (State ["Start"] "Start" 1 0
                          ["https://en.wikipedia.org/wiki/Start"]) _)
                (or_introl eq_refl)).
  vm_compute. reflexivity.
Defined.

Lemma loop_step (env : Env) (fuel : nat) (s : state) :
  0 < fuel ->
  iteration s < MAX_ITERATIONS ->
  loop env fuel s
  = match pass env s with
    | Continue _ s' => loop env (pred fuel) s'
    | Stop o s' => Some (o, s')
    end.
Proof.
  intros Hf H. destruct fuel as [|fuel]; [lia|].
  apply Nat.ltb_lt in H. cbn [loop pred]. rewrite H. reflexivity.
Qed.

(** The loop goes through the states of the trajectory. *)
Lemma loop_trajectory (env : Env) (k : nat) :
  forall fuel s0 s,
    trajectory env k s0 = Some s ->
    loop env (k + fuel) s0 = loop env fuel s.
Proof.
  induction k as [|k IH]; intros fuel s0 s H.
  - injection H as ->. reflexivity.
  - simpl in H. simpl.
    destruct (iteration s0 <? MAX_ITERATIONS)%nat; [|discriminate].
    destruct (pass env s0) as [m s1|]; [|discriminate].
    now apply IH.
Qed.

(** X6.  In a fresh game every link followed is the first valid link of
    its page.  A backtrack decides the game: when it is made before pass
    500, the next pass finds the page re-entered among the visited ones and
    ends the game with the loop failure; when it is made by pass 500, no
    pass follows and the game ends with the budget failure.  The game never
    succeeds after a backtrack. *)
Theorem fresh_game_follows_first_link
        (env : Env) (start_page : string) s m s' :
  reachable env start_page s ->
  iteration s < MAX_ITERATIONS ->
  pass env s = Continue m s' ->
  match m with
  | Followed index valid_links =>
      link_attempt s = 0 /\ index = 0
      /\ first_link_target env (current_page s) = Some (current_page s')
  | Backtracked =>
      play env start_page
      = if (S (iteration s) <? MAX_ITERATIONS)%nat
        then Some (FailedLoop,
                   State (visited_pages s)
                         (last (visited_pages s) EmptyString)
                         (S (S (iteration s))) 1 (requests s))
        else Some (FailedBudget, s')
  end.
Proof.
  intros Hr Hlt Hp. destruct m as [|index valid_links].
  - pose proof (reachable_iteration_counts Hr) as Htr.
    unfold play, navigate.
    replace (S MAX_ITERATIONS)
      with (iteration s + (S (MAX_ITERATIONS - iteration s))) by lia.
    rewrite (loop_trajectory env _ _ _ Htr).
    rewrite loop_step by lia. rewrite Hp. cbn [pred].
    destruct (backtrack_is_fatal Hr Hp) as (s'' & Hfatal).
    apply pass_backtracked in Hp. destruct Hp as (Ht & Hin & Ha & ->).
    destruct (Nat.ltb_spec (S (iteration s)) MAX_ITERATIONS) as [Hlt'|Hge].
    + rewrite loop_step by (cbn [iteration]; lia).
      rewrite Hfatal. f_equal. f_equal.
      pose proof (pass_cases env
                    (State (visited_pages s)
                           (last (visited_pages s) EmptyString)
                           (S (iteration s)) 1 (requests s))) as Hc.
      rewrite Hfatal in Hc. inversion Hc; subst; simpl in *; reflexivity.
    + destruct (MAX_ITERATIONS - iteration s) as [|fuel] eqn:Ef; [lia|].
      cbn [loop iteration].
      destruct (Nat.ltb_spec (S (iteration s)) MAX_ITERATIONS); [lia|].
      reflexivity.
  - destruct (second_link_never_followed Hr Hp) as [Ha Hi].
    repeat split; auto. eapply pass_followed_target; eauto.
Qed.

Lemma fresh_game_follows_first_link_witness :
  play Site.scenario_C "Start"
  = Some (FailedLoop,
          State ["Start"] "Start" 3 1 ["https://en.wikipedia.org/wiki/Start"]).
Proof.
  refine (@fresh_game_follows_first_link Site.scenario_C "Start"
            (State ["Start"] "Start" 1 0
                   ["https://en.wikipedia.org/wiki/Start"])
            Backtracked
            (State ["Start"] "Start" 2 1
                   ["https://en.wikipedia.org/wiki/Start"])
            scenario_C_first_pass _ _).
  - unfold MAX_ITERATIONS. simpl. lia.
  - vm_compute. reflexivity.
Defined.

(** X7.  [navigate] does not reset [visited_pages]: called on a game that
    has already visited the start page, it backtracks at once and fails on
    the loop in its second pass, without fetching anything. *)
Theorem navigate_on_used_game
        (env : Env) (visited : list string) (start_page : string) :
  In start_page visited ->
  start_page <> TARGET ->
  ~ In TARGET visited ->
  navigate env visited start_page
  = Some (FailedLoop, State visited (last visited EmptyString) 2 1 []).
Proof.
  intros Hin Ht Hnt. unfold navigate.
  assert (Hne : visited <> []) by (intros E; rewrite E in Hin; inversion Hin).
  rewrite loop_step
    by (unfold enter, MAX_ITERATIONS; cbn [iteration pred]; lia).
  rewrite pass_cycle_first by (simpl; auto).
  rewrite loop_step
    by (unfold enter, MAX_ITERATIONS; cbn [iteration pred]; lia).
  rewrite pass_cycle_again; simpl.
  - reflexivity.
  - intros E. apply Hnt. rewrite <- E. now apply last_In.
  - now apply last_In.
  - discriminate.
Qed.

Lemma navigate_on_used_game_witness :
  navigate Tour.straight ["Start"; "Logic"] "Start"
  = Some (FailedLoop, State ["Start"; "Logic"] "Logic" 2 1 []).
Proof.
  apply (@navigate_on_used_game Tour.straight ["Start"; "Logic"] "Start").
  - simpl. tauto.
  - discriminate.
  - simpl. intros [E|[E|[]]]; discriminate.
Defined.

(** X8.  [navigate] always returns: the loop ends within the 500 passes,
    and no subscript ([link['href']], [valid_links[0]], [valid_links[1]],
    [visited_pages[-1]]) is ever out of range. *)
Theorem navigate_returns_a_boolean
        (env : Env) (visited : list string) (start_page : string) :
  exists o s,
    navigate env visited start_page = Some (o, s)
    /\ (exists b, returns o = Some b)
    /\ (returns o = Some true <-> exists path, o = Succeeded path).
Proof.
  destruct (@loop_total env (S MAX_ITERATIONS) (enter visited start_page))
    as (o & s & H); [unfold enter; cbn [iteration]; lia|].
  exists o, s. split; [exact H|].
  pose proof (fun e => @navigate_never_raises env visited start_page o s e H)
    as Hsafe.
  destruct o as [path| | | | | | |e]; simpl;
    try (split; [eauto|]; split; [discriminate|];
         intros (p & E); discriminate).
  - split; [eauto|]. split; [eauto | reflexivity].
  - exfalso. eapply Hsafe. reflexivity.
Qed.

(** ** Properties of the link filters *)

Lemma wiki_href_shape (href : string) :
  PyStr.startswith href "/wiki/" = true ->
  href <> EmptyString /\ PyStr.startswith href "#" = false.
Proof.
  unfold PyStr.startswith.
  destruct href as [|c href]; cbn [String.prefix];
    [intros H; discriminate H|].
  destruct (ascii_dec "/" c) as [<-|]; intros H; [|discriminate H].
  split; [discriminate | reflexivity].
Qed.

(** X9.  [is_valid_link] accepts a link exactly when it has an [href] that
    starts with [/wiki/], starts with none of the eight reserved prefixes
    and does not contain [#cite]; a missing or empty [href] is rejected, and
    so is every address outside [/wiki/].  The test for a leading [#] never
    decides: no such [href] starts with [/wiki/]. *)
Theorem is_valid_link_iff (link : node) :
  is_valid_link link = true <->
  exists href,
    Soup.get link "href" = Some href
    /\ PyStr.startswith href "/wiki/" = true
    /\ (forall prefix, In prefix invalid_prefixes ->
                       PyStr.startswith href prefix = false)
    /\ PyStr.contains "#cite" href = false.
Proof.
  split.
  - intros H. destruct (is_valid_link_href _ H) as (href & Hget & Hv).
    exists href. split; [assumption|].
    destruct (valid_href_prefixes _ Hv) as [Hw Hp].
    split; [assumption|]. split; [assumption|].
    unfold valid_href in Hv. rewrite Hw in Hv. cbn [negb] in Hv.
    destruct (existsb (PyStr.startswith href) invalid_prefixes);
      [discriminate|].
    destruct (PyStr.contains "#cite" href); [discriminate | reflexivity].
  - intros (href & Hget & Hw & Hp & Hc). unfold is_valid_link.
    rewrite Hget. destruct (wiki_href_shape _ Hw) as [Hne Hhash].
    apply String.eqb_neq in Hne. rewrite Hne.
    unfold valid_href. rewrite Hw, Hc, Hhash. cbn [negb orb].
    destruct (existsb (PyStr.startswith href) invalid_prefixes) eqn:Hex;
      [|reflexivity].
    apply existsb_exists in Hex. destruct Hex as (prefix & Hin & Hpre).
    rewrite (Hp prefix Hin) in Hpre. discriminate.
Qed.

(** X10.  [is_in_italics] holds exactly when, walking from the element
    through its parents, an [i] or [em] is met, with no [p] before it. *)
Theorem is_in_italics_iff (e : element) :
  is_in_italics e = true <->
  exists below n above,
    self e :: parents e = below ++ n :: above
    /\ (Soup.has_name "i" n = true \/ Soup.has_name "em" n = true)
    /\ Forall (fun m => Soup.has_name "p" m = false) below.
Proof.
  unfold is_in_italics. generalize (self e :: parents e) as chain.
  induction chain as [|current up IH]; simpl.
  - split; [discriminate|]. intros (below & n & above & E & _).
    destruct below; discriminate.
  - destruct (Soup.has_name "i" current || Soup.has_name "em" current) eqn:Hi.
    + split; [|reflexivity]. intros _. exists [], current, up.
      apply orb_true_iff in Hi. auto.
    + apply orb_false_iff in Hi. destruct Hi as [Hi Hem].
      destruct (Soup.has_name "p" current) eqn:Hp.
      * split; [discriminate|]. intros (below & n & above & E & Hn & Hb).
        destruct below as [|b below]; simpl in E; injection E as <- E.
        -- destruct Hn; congruence.
        -- inversion Hb; subst. congruence.
      * rewrite IH. split.
        -- intros (below & n & above & -> & Hn & Hb).
           exists (current :: below), n, above. auto.
        -- intros (below & n & above & E & Hn & Hb).
           destruct below as [|b below]; simpl in E; injection E as <- E.
           ++ destruct Hn; congruence.
           ++ inversion Hb; subst. exists below, n, above. auto.
Qed.

(** X11.  Neither walk looks above the first [p]: what encloses the
    paragraph of an element, an [i] included, does not change the verdict of
    [is_in_italics] or of [is_in_parentheses]. *)
Theorem walks_ignore_above_paragraph
        (elem p : node) (below above : list node) :
  Soup.has_name "p" p = true ->
  is_in_italics (Element elem (below ++ p :: above))
  = is_in_italics (Element elem (below ++ [p]))
  /\ is_in_parentheses (Element elem (below ++ p :: above))
     = is_in_parentheses (Element elem (below ++ [p])).
Proof.
  intros Hp. unfold is_in_italics, is_in_parentheses. simpl self.
  simpl parents.
  exact (walks_stop_at_paragraph elem p (elem :: below) above Hp).
Qed.

Lemma walks_ignore_above_paragraph_witness :
  is_in_italics
    (Element Site.reasoning
             ([] ++ Site.logic_paragraph
                 :: [Tag "i" [] [Site.logic_paragraph]]))
  = is_in_italics (Element Site.reasoning ([] ++ [Site.logic_paragraph])).
Proof.
  refine (proj1 (@walks_ignore_above_paragraph Site.reasoning
                   Site.logic_paragraph []
                   [Tag "i" [] [Site.logic_paragraph]] _)).
  reflexivity.
Defined.

(** X12.  The verdict of [is_in_parentheses] depends on the text of the
    link and on its paragraph only: two links with the same text in the same
    paragraph are both rejected or both kept, wherever they stand. *)
Theorem parentheses_verdict_by_text (e1 e2 : element) :
  enclosing_paragraph e1 = enclosing_paragraph e2 ->
  Soup.get_text (self e1) = Soup.get_text (self e2) ->
  is_in_parentheses e1 = is_in_parentheses e2.
Proof.
  unfold is_in_parentheses, enclosing_paragraph. intros Hp Ht.
  rewrite !parentheses_walk_paragraph, Hp, Ht. reflexivity.
Qed.

Lemma parentheses_verdict_by_text_witness :
  is_in_parentheses (Element Tour.greek_again [Tour.twice_greek]) = true.
Proof.
  rewrite (@parentheses_verdict_by_text
             (Element Tour.greek_again [Tour.twice_greek])
             (Element Site.greek [Tour.twice_greek])
             eq_refl eq_refl).
  reflexivity.
Defined.

Lemma list_ascii_of_string_app (a b : string) :
  list_ascii_of_string (a ++ b)
  = list_ascii_of_string a ++ list_ascii_of_string b.
Proof. induction a as [|c a IH]; simpl; [reflexivity | now rewrite IH]. Qed.

(** X13.  A link is never rejected as parenthetical when it stands in no
    paragraph, or when the text of its paragraph lacks an opening or a
    closing parenthesis. *)
Theorem no_parenthesis_no_rejection (e : element) :
  (forall paragraph,
     enclosing_paragraph e = Some paragraph ->
     free_of "("%char (Soup.get_text paragraph)
     \/ free_of ")"%char (Soup.get_text paragraph)) ->
  is_in_parentheses e = false.
Proof.
  intros H. destruct (is_in_parentheses e) eqn:Hin; [|reflexivity].
  exfalso. unfold is_in_parentheses in Hin.
  rewrite parentheses_walk_paragraph in Hin.
  unfold enclosing_paragraph in H.
  destruct (find (Soup.has_name "p") (self e :: parents e)) as [p|];
    [|discriminate].
  apply search_paren_pattern in Hin.
  destruct Hin as (before & l & r & after & E & _).
  unfold free_of in H. destruct (H p eq_refl) as [Hf|Hf]; apply Hf;
    rewrite E, !list_ascii_of_string_app, !in_app_iff; simpl; tauto.
Qed.

Lemma no_parenthesis_no_rejection_witness :
  is_in_parentheses
    (Element Site.reasoning [Tag "em" [] [Site.reasoning]; Tour.plain])
  = false.
Proof.
  apply no_parenthesis_no_rejection.
  intros paragraph E. injection E as <-. left.
  unfold free_of. vm_compute.
  intros H. repeat (destruct H as [H|H]; [discriminate H|]). exact H.
Defined.

(** ** Properties of [find_first_valid_links] *)

(** X14.  Asking for fewer links gives the first ones of what asking for
    more gives: in particular the link followed first is the same whether
    one link or two are asked for. *)
Theorem fewer_links_are_the_first
        (env : Env) (html : string) (n m : Z) :
  (1 <= n <= m)%Z ->
  exists fewer more,
    find_first_valid_links env html n = Return fewer
    /\ find_first_valid_links env html m = Return more
    /\ fewer = firstn (Z.to_nat n) more.
Proof.
  intros H. do 2 eexists.
  split; [apply find_first_valid_links_spec|].
  split; [apply find_first_valid_links_spec|].
  rewrite firstn_firstn. f_equal. unfold cap. lia.
Qed.

Lemma fewer_links_are_the_first_witness :
  exists fewer more,
    find_first_valid_links Site.scenario_C
                           "https://en.wikipedia.org/wiki/Start" 1
    = Return fewer
    /\ find_first_valid_links Site.scenario_C
                              "https://en.wikipedia.org/wiki/Start" 2
       = Return more
    /\ fewer = firstn (Z.to_nat 1) more.
Proof.
  apply fewer_links_are_the_first. lia.
Defined.

Lemma lstrip_blank (s : string) : PyStr.lstrip s = EmptyString <-> blank s.
Proof.
  unfold blank. induction s as [|c s IH]; simpl.
  - split; [intros _ c [] | reflexivity].
  - destruct (PyStr.isspace c) eqn:Hc.
    + rewrite IH. split.
      * intros H d [<-|Hd]; auto.
      * intros H d Hd. apply H. now right.
    + split; [discriminate|]. intros H.
      rewrite (H c (or_introl eq_refl)) in Hc. discriminate.
Qed.

Lemma rstrip_keeps_start (c : ascii) (s : string) :
  PyStr.isspace c = false -> PyStr.rstrip (String c s) <> EmptyString.
Proof. intros H. simpl. rewrite H. simpl. discriminate. Qed.

Lemma lstrip_start (s : string) :
  PyStr.lstrip s = EmptyString
  \/ exists c r, PyStr.lstrip s = String c r /\ PyStr.isspace c = false.
Proof.
  induction s as [|c s IH]; simpl; [now left|].
  destruct (PyStr.isspace c) eqn:Hc; [exact IH|]. right. eauto.
Qed.

Lemma strip_blank (s : string) : PyStr.strip s = EmptyString <-> blank s.
Proof.
  unfold PyStr.strip. rewrite <- lstrip_blank.
  destruct (lstrip_start s) as [->|(c & r & -> & Hc)].
  - simpl. tauto.
  - split; [|discriminate]. intros H.
    exfalso. exact (@rstrip_keeps_start c r Hc H).
Qed.

Lemma concat_nonempty (l : list string) :
  Forall (fun s => s <> EmptyString) l ->
  String.concat EmptyString l = EmptyString -> l = [].
Proof.
  intros H. destruct l as [|x l]; [reflexivity|]. inversion H; subst.
  simpl. destruct l; [congruence|]. destruct x; [congruence | discriminate].
Qed.

Lemma get_text_strip_blank (n : node) :
  Soup.get_text_strip n = EmptyString
  <-> Forall blank (Soup.all_strings (Soup.string_types n) n).
Proof.
  unfold Soup.get_text_strip.
  set (keep := fun s : string => negb (s =? "")%string).
  set (strings := Soup.all_strings (Soup.string_types n) n).
  assert (Hf : filter keep (map PyStr.strip strings) = []
               <-> Forall blank strings).
  { induction strings as [|s l IH]; simpl.
    - split; [constructor | reflexivity].
    - unfold keep at 1.
      destruct (String.eqb_spec (PyStr.strip s) EmptyString) as [E|E]; simpl.
      + rewrite IH. split.
        * intros H. constructor; [now apply strip_blank | assumption].
        * intros H. now inversion H.
      + split; [discriminate|]. intros H. inversion H; subst.
        exfalso. apply E. now apply strip_blank. }
  rewrite <- Hf. split.
  - apply concat_nonempty. apply Forall_forall. intros s Hs.
    apply filter_In in Hs. destruct Hs as [_ Hs]. unfold keep in Hs.
    apply negb_true_iff in Hs. now apply String.eqb_neq.
  - intros ->. reflexivity.
Qed.

(** X15.  A paragraph is passed over exactly when every string that
    [get_text] looks at in it (the strings of class [NavigableString] or
    [CData]; not comments, style sheets or scripts) is white space, or
    there is none: its links are then not looked at, valid or not, and the
    scan goes on with the next paragraph. *)
Theorem blank_paragraph_skipped (paragraph : node) :
  (Soup.get_text_strip paragraph =? "")%string = true
  <-> Forall blank (Soup.all_strings (Soup.string_types paragraph) paragraph).
Proof. rewrite String.eqb_eq. apply get_text_strip_blank. Qed.

(** X16.  The links of a paragraph whose strings, as far as [get_text]
    looks at them, are all white space are never returned: scanning it
    changes nothing. *)
Theorem blank_paragraph_contributes_nothing
        (env : Env) (num_links : Z) (paragraph : node)
        (paragraphs : list node) (valid_links : list string) :
  Forall blank (Soup.all_strings (Soup.string_types paragraph) paragraph) ->
  scan_paragraphs env num_links (paragraph :: paragraphs) valid_links
  = scan_paragraphs env num_links paragraphs valid_links
  /\ candidates_of env paragraph = [].
Proof.
  intros H. apply get_text_strip_blank in H.
  unfold candidates_of. simpl. rewrite H. auto.
Qed.

Lemma blank_paragraph_contributes_nothing_witness :
  scan_paragraphs Site.scenario_C 2
                  [Tour.image_only; Site.logic_paragraph] []
  = scan_paragraphs Site.scenario_C 2 [Site.logic_paragraph] [].
Proof.
  refine (proj1 (@blank_paragraph_contributes_nothing Site.scenario_C 2
                   Tour.image_only [Site.logic_paragraph] [] _)).
  repeat constructor; intros c H; simpl in H;
    repeat (destruct H as [<-|H]; [reflexivity|]); contradiction.
Defined.

(** ** Titles and URLs *)

Lemma contains_cons (sep : string) (c : ascii) (s : string) :
  PyStr.contains sep (String c s) = false ->
  String.prefix sep (String c s) = false /\ PyStr.contains sep s = false.
Proof.
  cbn [PyStr.contains].
  destruct (String.prefix sep (String c s)); [discriminate | auto].
Qed.

Lemma split_last_without (sep : string) (s : string) :
  forall piece,
    PyStr.contains sep s = false ->
    PyStr.split_last_from sep 0 piece s = (piece ++ s)%string.
Proof.
  induction s as [|c s IH]; intros piece H.
  - simpl. now rewrite append_nil_r.
  - apply contains_cons in H. destruct H as [Hp Hc].
    cbn [PyStr.split_last_from]. rewrite Hp, (IH _ Hc), append_assoc.
    reflexivity.
Qed.

Lemma wiki_path_title (title : string) :
  PyStr.contains "/wiki/" title = false ->
  PyStr.contains "/wiki/" ("/wiki/" ++ title) = true
  /\ PyStr.split_last "/wiki/" ("/wiki/" ++ title) = title.
Proof.
  intros H. split.
  - cbn [append PyStr.contains String.prefix].
    repeat (destruct (ascii_dec _ _) as [_|N]; [|now elim N]).
    destruct title; reflexivity.
  - unfold PyStr.split_last. cbn [append PyStr.split_last_from String.prefix].
    repeat (destruct (ascii_dec _ _) as [_|N]; [|now elim N]).
    assert (E : String.prefix EmptyString title = true)
      by (destruct title; reflexivity).
    rewrite E. cbn [String.length Nat.sub PyStr.split_last_from].
    now apply split_last_without.
Qed.

(** X17.  The URL that [fetch_page] requests for a title is read back by
    [get_page_title_from_url] as that title, decoded, whenever the URL
    parser gives [/wiki/] followed by the title as the path of that URL and
    the title does not contain [/wiki/]; so it is read back as the title
    itself when decoding leaves the title as it is. *)
Theorem title_of_fetched_url
        (env : Env) (page_title : string) (log : list string)
        (html url : string) :
  urlparse_path env (page_url page_title) = ("/wiki/" ++ page_title)%string ->
  PyStr.contains "/wiki/" page_title = false ->
  fst (fetch_page env log page_title) = Some (html, url) ->
  get_page_title_from_url env url = Some (unquote env page_title)
  /\ (unquote env page_title = page_title ->
      get_page_title_from_url env url = Some page_title).
Proof.
  intros Hpath Hfree H. unfold fetch_page in H.
  destruct (http_get env _) as [text|]; [|discriminate].
  cbn [fst] in H.
  assert (Eu : url = page_url page_title)
    by (unfold page_url; congruence).
  assert (Ht : get_page_title_from_url env url
               = Some (unquote env page_title)).
  { rewrite Eu. unfold get_page_title_from_url. rewrite Hpath.
    destruct (wiki_path_title _ Hfree) as [Hc Hs].
    rewrite Hc, Hs. reflexivity. }
  split; [exact Ht|]. intros Hun. rewrite Ht, Hun. reflexivity.
Qed.

Lemma title_of_fetched_url_witness :
  get_page_title_from_url Site.scenario_A
                          "https://en.wikipedia.org/wiki/Logic"
  = Some "Logic".
Proof.
  refine (proj2 (@title_of_fetched_url Site.scenario_A "Logic" []
                   "https://en.wikipedia.org/wiki/Logic"
                   "https://en.wikipedia.org/wiki/Logic" _ _ _) _).
  - vm_compute. reflexivity.
  - reflexivity.
  - reflexivity.
  - reflexivity.
Defined.

(** ** Properties of [main] *)

Lemma map_snd_numbered (A : Type) (l : list A) (k : nat) :
  map snd (combine (seq k (length l)) l) = l.
Proof.
  revert k. induction l as [|x l IH]; intros k; simpl;
    [reflexivity | now rewrite IH].
Qed.

(** X18.  A line of white space only (or an empty line) ends the script
    with status 1 before any game is played: nothing is fetched and no
    path is printed. *)
Theorem main_blank_input (env : Env) (input : string) :
  blank input -> main env input = Some (Report 1 [] []).
Proof.
  intros H. apply strip_blank in H. unfold main. rewrite H. reflexivity.
Qed.

Lemma main_blank_input_witness :
  main Tour.straight "   " = Some (Report 1 [] []).
Proof.
  apply main_blank_input. intros c H. simpl in H.
  repeat (destruct H as [<-|H]; [reflexivity|]). contradiction.
Defined.

(** X19.  The script always ends, with status 0 or 1.  With status 0 the
    path printed starts at the title typed (stripped) and ends at the
    target, and the pages fetched are the pages printed, the target apart;
    with status 1 the path printed does not name the target, and the pages
    fetched are the pages printed. *)
Theorem main_exit_status (env : Env) (input : string) :
  exists r,
    main env input = Some r
    /\ (exit_status r = 0
        /\ hd_error (map snd (path_printed r)) = Some (PyStr.strip input)
        /\ last (map snd (path_printed r)) EmptyString = TARGET
        /\ fetched r = map page_url (removelast (map snd (path_printed r)))
        \/ exit_status r = 1
           /\ ~ In TARGET (map snd (path_printed r))
           /\ fetched r = map page_url (map snd (path_printed r))).
Proof.
  unfold main.
  destruct (String.eqb_spec (PyStr.strip input) EmptyString) as [E|E].
  { eexists. split; [reflexivity|]. right. simpl. auto. }
  destruct (@loop_total env (S MAX_ITERATIONS) (enter [] (PyStr.strip input)))
    as (o & s & H); [unfold enter; cbn [iteration]; lia|].
  change (play env (PyStr.strip input) = Some (o, s)) in H.
  rewrite H.
  pose proof (play_state _ _ H) as (Hreq & _ & _ & Hnt).
  assert (Hfail : exists r,
             Some (Report 1
                     (combine (seq 1 (length (visited_pages s)))
                              (visited_pages s))
                     (requests s)) = Some r
             /\ (exit_status r = 0
                 /\ hd_error (map snd (path_printed r))
                    = Some (PyStr.strip input)
                 /\ last (map snd (path_printed r)) EmptyString = TARGET
                 /\ fetched r
                    = map page_url (removelast (map snd (path_printed r)))
                 \/ exit_status r = 1
                    /\ ~ In TARGET (map snd (path_printed r))
                    /\ fetched r
                       = map page_url (map snd (path_printed r)))).
  { eexists. split; [reflexivity|]. right. simpl.
    rewrite map_snd_numbered. auto. }
  destruct o as [path| | | | | | |e]; try exact Hfail.
  - clear Hfail. eexists. split; [reflexivity|]. left. simpl.
    pose proof (play_result _ _ H) as (s0 & Hr & Hend).
    destruct Hend as [[_ Hp]|[_ [E' _]]]; [|discriminate].
    pose proof (reachable_trail Hr) as (_ & _ & Hat & Hhd & _ & Hlast).
    pose proof (reachable_invariant Hr) as [_ Hnt0 _ _].
    pose proof (pass_cases env s0) as Hc. rewrite Hp in Hc.
    inversion Hc as [Ht| | | | | |]; subst. simpl in *.
    assert (Ha : link_attempt s0 = 0).
    { destruct Hat as [Ha|Ha]; [assumption|].
      destruct (Hlast Ha) as [Hne Hcur]. exfalso. apply Hnt0.
      rewrite <- Ht, Hcur. now apply last_In. }
    unfold trail in Hhd. rewrite Ha, Ht in Hhd. simpl in Hhd.
    rewrite print_summary_pages, removelast_last, last_last. auto.
  - exfalso. unfold play in H.
    exact (@navigate_never_raises env [] (PyStr.strip input) _ s e H eq_refl).
Qed.

(** ** Sample runs *)

(** Strings of a style sheet are not part of the text of a paragraph: the
    opening parenthesis in the style sheet of [Tour.styled] does not put its
    first link in parentheses, and both links are returned. *)
Example styled_paragraph_text :
  Soup.get_text Tour.styled = "A b) B"
  /\ is_in_parentheses
       (Element (Tag "a" [("href", "/wiki/A")] [NavigableString "A"])
                [Tour.styled]) = false
  /\ scan_paragraphs Site.scenario_C 2 [Tour.styled] []
     = Return ["https://en.wikipedia.org/wiki/A";
               "https://en.wikipedia.org/wiki/B"].
Proof. repeat split; vm_compute; reflexivity. Qed.

(** A paragraph of a style sheet, a comment and a linked image has no text
    and is passed over. *)
Example styled_image_skipped :
  Soup.get_text_strip Tour.styled_image = EmptyString
  /\ scan_paragraphs Site.scenario_C 2
                     [Tour.styled_image; Site.logic_paragraph] []
     = Return ["https://en.wikipedia.org/wiki/Reason"].
Proof. repeat split; vm_compute; reflexivity. Qed.

(** A backtrack made by pass 500 is followed by no pass: the game ends with
    the budget failure, 499 visited pages and the second link pending. *)
Example late_cycle_run :
  option_map
    (fun result =>
       (fst result, length (visited_pages (snd result)),
        iteration (snd result), link_attempt (snd result),
        current_page (snd result)))
    (play Tour.late_cycle "0")
  = Some (FailedBudget, 499, 500, 1, "010011111").
Proof. vm_compute. reflexivity. Qed.
